(** * Animated Earth (Three.js): the starfield sampler

    A shallow embedding of [src/stars/getStarfield.js] and of the starfield
    section of [src/main.js], with the properties the specification states
    about them.

    Modelling conventions.
    - JavaScript numbers are the real numbers [R]: [Math.sin], [Math.cos],
      [Math.acos] and [Math.PI] are the functions and the constant of the
      standard library of reals, and the conversion a [Float32Array] applies
      when an element is stored is the identity.  Rounding is not modelled.
    - [numStars] is an integer ([Z]); the specification types it so.  The
      engine's upper limit on the length of a typed array is not modelled.
    - [Math.random] is the ambient random source: an infinite stream of draws
      held by the world, together with the number of draws consumed so far.
    - three.js is the release the ReadMe names, r152.  There the
      constructors of [BufferGeometry], of a material and of an [Object3D]
      (so of [Points]) each make a uuid with [MathUtils.generateUUID], which
      calls [Math.random] four times; a [BufferAttribute] has no uuid.  The
      draws are consumed in the model, the identifier is not kept.
    - Typed arrays are objects with identity: the world holds a heap of
      buffers, [new Float32Array(n)] allocates a fresh one, and an element
      store updates the buffer in place.
    - A computation is a function from the world to either a thrown error or
      a value and the world after. *)

From Stdlib Require Import Reals Lra Lia ZArith.
From stdpp Require Import base list strings gmap pretty.

Open Scope R_scope.

(** ** The world: random source and heap of typed arrays *)

Definition loc := nat.

Record World := mkWorld {
  draws   : nat -> R;        (* the stream Math.random reads *)
  drawn   : nat;             (* how many draws were consumed *)
  buffers : list (list R)    (* heap of Float32Arrays, by address *)
}.

Inductive JsError := RangeError.

Definition JS (A : Type) : Type := World -> JsError + A * World.

Definition ret {A} (a : A) : JS A := fun w => inr (a, w).

Definition bind {A B} (m : JS A) (k : A -> JS B) : JS B :=
  fun w => match m w with
           | inl e => inl e
           | inr (a, w') => k a w'
           end.

Definition throw {A} (e : JsError) : JS A := fun _ => inl e.

Declare Scope js_scope.
Delimit Scope js_scope with js.
Notation "'let*' x := m 'in' k" := (bind m (fun x => k))
  (at level 10, x name, m at level 100, k at level 200) : js_scope.
Notation "m ;; k" := (bind m (fun _ => k))
  (at level 100, k at level 200, right associativity) : js_scope.

(** ** The ambient [Math] object *)

Module Math.

Definition PI : R := Rtrigo1.PI.
Definition sin : R -> R := Rtrigo_def.sin.
Definition cos : R -> R := Rtrigo_def.cos.
Definition acos : R -> R := Ratan.acos.

(** [Math.random()]: the next draw of the stream. *)
Definition random : JS R :=
  fun w => inr (draws w (drawn w),
                mkWorld (draws w) (S (drawn w)) (buffers w)).

End Math.

(** [MathUtils.generateUUID()] of three.js: four draws of the ambient
    source make the identifier. *)
Module MathUtils.

Definition generateUUID : JS unit :=
  (Math.random ;; Math.random ;; Math.random ;; Math.random ;; ret tt)%js.

End MathUtils.

(** ** Typed arrays *)

Module Float32Array.

(** [new Float32Array(length)]: a negative length throws a RangeError,
    otherwise a fresh zero-filled buffer is allocated. *)
Definition new (length : Z) : JS loc :=
  fun w =>
    if (length <? 0)%Z then throw RangeError w
    else inr (List.length (buffers w),
              mkWorld (draws w) (drawn w)
                      (buffers w ++ [replicate (Z.to_nat length) 0])).

(** [a[k] = x]: an index outside the array is ignored. *)
Definition store (a : loc) (k : nat) (x : R) : JS unit :=
  fun w => inr (tt, mkWorld (draws w) (drawn w)
                            (alter (fun b => <[k := x]> b) a (buffers w))).

End Float32Array.

(** ** The part of three.js the program uses *)

Module THREE.

Record BufferAttribute := mkBufferAttribute {
  array : loc;
  itemSize : nat
}.

Record BufferGeometry := mkBufferGeometry {
  attributes : gmap string BufferAttribute
}.

Definition setAttribute (name : string) (attr : BufferAttribute)
    (g : BufferGeometry) : BufferGeometry :=
  mkBufferGeometry (<[name := attr]> (attributes g)).

Record PointsMaterial := mkPointsMaterial {
  color : Z;
  size : R;
  sizeAttenuation : bool
}.

Record Points := mkPoints {
  geometry : BufferGeometry;
  material : PointsMaterial
}.

(** The constructors that draw a uuid. *)
Definition new_BufferGeometry : JS BufferGeometry :=
  (MathUtils.generateUUID ;; ret (mkBufferGeometry ∅))%js.

Definition new_PointsMaterial (color : Z) (size : R) (sizeAttenuation : bool)
    : JS PointsMaterial :=
  (MathUtils.generateUUID ;;
   ret (mkPointsMaterial color size sizeAttenuation))%js.

Definition new_Points (geometry : BufferGeometry) (material : PointsMaterial)
    : JS Points :=
  (MathUtils.generateUUID ;; ret (mkPoints geometry material))%js.

End THREE.

(** ** [getStarfield] *)

(** The argument object [{ numStars, radius }]; an omitted field is [None]. *)
Record StarfieldOptions := mkOptions {
  opt_numStars : option Z;
  opt_radius : option R
}.

(** [for (let i = 0; i < n; i++) body]: the body runs for i = 0, ..., n-1. *)
Fixpoint for_loop (n : nat) (i : nat) (body : nat -> JS unit) : JS unit :=
  match n with
  | O => ret tt
  | S n' => (body i ;; for_loop n' (S i) body)%js
  end.

Definition star_body (starPositions : loc) (radius : R) (i : nat) : JS unit :=
  (let* u1 := Math.random in
   let theta := u1 * 2 * Math.PI in
   let* u2 := Math.random in
   let phi := Math.acos (2 * u2 - 1) in
   let* u3 := Math.random in
   let distance := radius * (0.8 + 0.2 * u3) in
   let x := distance * Math.sin phi * Math.cos theta in
   let y := distance * Math.sin phi * Math.sin theta in
   let z := distance * Math.cos phi in
   Float32Array.store starPositions (i * 3) x ;;
   Float32Array.store starPositions (i * 3 + 1) y ;;
   Float32Array.store starPositions (i * 3 + 2) z)%js.

Definition getStarfield (arg : option StarfieldOptions) : JS THREE.Points :=
  let o := default (mkOptions None None) arg in
  let numStars := default 10%Z (opt_numStars o) in
  let radius := default 25 (opt_radius o) in
  (let* starGeometry := THREE.new_BufferGeometry in
   let* starPositions := Float32Array.new (numStars * 3) in
   for_loop (Z.to_nat numStars) 0 (star_body starPositions radius) ;;
   let starGeometry :=
     THREE.setAttribute "position"
       (THREE.mkBufferAttribute starPositions 3) starGeometry in
   let* starMaterial := THREE.new_PointsMaterial 16777215 0.01 true in
   THREE.new_Points starGeometry starMaterial)%js.

(** ** The starfield section of [main.js] *)

Definition stars : Z := 500.

(** The three [getStarfield] calls and [starsGroup.add(...)]; the value is
    the list of children of [starsGroup]. *)
Definition main_starfield : JS (list THREE.Points) :=
  (let* starsX_Low :=
     getStarfield (Some (mkOptions (Some stars) (Some 500))) in
   let* starsX_Med :=
     getStarfield (Some (mkOptions (Some stars) (Some 750))) in
   let* starsX_High :=
     getStarfield (Some (mkOptions (Some stars) (Some 1000))) in
   ret [starsX_Low; starsX_Med; starsX_High])%js.

(** ** Observing a point cloud *)

(** The typed array behind the ["position"] attribute of a [Points]. *)
Definition positions (w : World) (p : THREE.Points) : option (list R) :=
  match THREE.attributes (THREE.geometry p) !! "position"%string with
  | Some attr => buffers w !! THREE.array attr
  | None => None
  end.

(** Point [i] of a flat buffer laid out as x0 y0 z0 x1 y1 z1 ... *)
Definition point_at (b : list R) (i : nat) : option (R * R * R) :=
  match b !! (3 * i)%nat, b !! (3 * i + 1)%nat, b !! (3 * i + 2)%nat with
  | Some x, Some y, Some z => Some (x, y, z)
  | _, _, _ => None
  end.

(** Number of points of a flat buffer (three.js: array.length / itemSize). *)
Definition point_count (b : list R) : nat := (length b / 3)%nat.

Definition norm (p : R * R * R) : R :=
  let '(x, y, z) := p in sqrt (x * x + y * y + z * z).

(** ** The sampling rule in the words of the specification *)

Definition spec_point (radius u_theta u_phi u_jit : R) : R * R * R :=
  let theta := u_theta * (2 * PI) in
  let phi := acos (2 * u_phi - 1) in
  let d := radius * (0.8 + 0.2 * u_jit) in
  (d * sin phi * cos theta, d * sin phi * sin theta, d * cos phi).

(** [n] points in generation order, point [i] made from the draws
    [c + 3i], [c + 3i + 1], [c + 3i + 2] of the stream [d], for a loop that
    begins at the draw [c]. *)
Fixpoint spec_cloud (radius : R) (d : nat -> R) (c n : nat) : list R :=
  match n with
  | O => []
  | S n' =>
      let '(x, y, z) := spec_point radius (d c) (d (S c)) (d (S (S c))) in
      x :: y :: z :: spec_cloud radius d (S (S (S c))) n'
  end.

(** Every draw of the stream lies in [0, 1), as [Math.random] promises. *)
Definition unit_draws (d : nat -> R) : Prop := forall k, 0 <= d k < 1.

(** ** Describing a call *)

(** The parameters in force after the defaults of the signature. *)
Definition numStars_of (arg : option StarfieldOptions) : Z :=
  default 10%Z (opt_numStars (default (mkOptions None None) arg)).

Definition radius_of (arg : option StarfieldOptions) : R :=
  default 25 (opt_radius (default (mkOptions None None) arg)).

(** The object returned when the position buffer lives at address [l]. *)
Definition starfield_at (l : loc) : THREE.Points :=
  THREE.mkPoints
    (THREE.setAttribute "position" (THREE.mkBufferAttribute l 3)
       (THREE.mkBufferGeometry ∅))
    (THREE.mkPointsMaterial 16777215 0.01 true).

(** The cursor of the random source when the loop of a call made in [w]
    begins: after the four draws of the geometry's uuid. *)
Definition loop_start (w : World) : nat := (drawn w + 4)%nat.

(** The world after a call: [3n + 12] more draws consumed (four for each of
    the three uuids, three for each star), one more buffer. *)
Definition world_after (arg : option StarfieldOptions) (w : World) : World :=
  mkWorld (draws w) (drawn w + 3 * Z.to_nat (numStars_of arg) + 12)
    (buffers w ++
       [spec_cloud (radius_of arg) (draws w) (loop_start w)
          (Z.to_nat (numStars_of arg))]).

(** "No error is signalled and the output is degenerate (empty or
    non-finite)", read on a result of the model.  The cells of the model
    are real numbers, so a result is degenerate here exactly when the call
    returns an empty buffer.  The reading is used only where the code's
    cells are finite as well: at a count of 0, where there is no cell, and
    at a radius of 0, where every cell the code stores is 0. *)
Definition degenerate_result (res : JsError + THREE.Points * World) : Prop :=
  match res with
  | inl _ => False
  | inr (p, w') => positions w' p = Some []
  end.

(** Reflection of a point through the origin. *)
Definition mirror (p : R * R * R) : R * R * R :=
  let '(x, y, z) := p in (- x, - y, - z).

(** Address of the typed array behind the ["position"] attribute. *)
Definition position_array (p : THREE.Points) : option loc :=
  THREE.array <$> (THREE.attributes (THREE.geometry p) !! "position"%string).

(** The options object of a call that gives both fields. *)
Definition options (numStars : Z) (radius : R) : option StarfieldOptions :=
  Some (mkOptions (Some numStars) (Some radius)).

(** ** Latitude bands *)

(** Cosine of the polar angle of a point: its height over its distance
    from the origin. *)
Definition polar_cos (p : R * R * R) : R :=
  let '(x, y, z) := p in z / norm p.

Definition polar_angle (p : R * R * R) : R := acos (polar_cos p).

(** [lo <= x < hi], decided. *)
Definition between (lo hi x : R) : bool :=
  if Rle_dec lo x then (if Rlt_dec x hi then true else false) else false.

(** How many of the first [n] points of a buffer lie in the band of the
    sphere between the heights [a1] and [a2] (polar cosine in [a1, a2)). *)
Fixpoint band_count (b : list R) (a1 a2 : R) (n : nat) : nat :=
  match n with
  | O => O
  | S m =>
      (band_count b a1 a2 m +
       match point_at b m with
       | Some pt => if between a1 a2 (polar_cos pt) then 1 else 0
       | None => 0
       end)%nat
  end.

(** How many of the first [n] terms of a sequence lie in [lo, hi). *)
Fixpoint draw_count (u : nat -> R) (lo hi : R) (n : nat) : nat :=
  match n with
  | O => O
  | S m => (draw_count u lo hi m + if between lo hi (u m) then 1 else 0)%nat
  end.

(** The draw that becomes the polar angle of point [i] of a call made in
    world [w]: the second of its three draws. *)
Definition phi_draw (w : World) (i : nat) : R :=
  draws w (loop_start w + 3 * i + 1)%nat.

(** The buffer of the call [getStarfield({numStars: n, radius})] in [w]. *)
Definition sample (n : nat) (radius : R) (w : World) : list R :=
  match getStarfield (options (Z.of_nat n) radius) w with
  | inr (p, w') => default [] (positions w' p)
  | inl _ => []
  end.

(** Fraction of the points of a sample of size [n] that lie in a band, and
    fraction of its polar draws that lie in an interval. *)
Definition band_fraction (radius : R) (w : World) (a1 a2 : R) (n : nat) : R :=
  INR (band_count (sample n radius w) a1 a2 n) / INR n.

Definition draw_fraction (w : World) (lo hi : R) (n : nat) : R :=
  INR (draw_count (phi_draw w) lo hi n) / INR n.

(** Share of the area of a sphere within polar angle [phi] of the pole,
    and share between the heights [a1] and [a2] of the unit sphere (a zone
    of height h has area 2 pi h, the sphere 4 pi). *)
Definition cap_area_fraction (phi : R) : R := (1 - cos phi) / 2.

Definition band_area_fraction (a1 a2 : R) : R := (a2 - a1) / 2.

(** ** Worlds for concrete runs *)

(** The draws 0, 0.25, 0.5, 0.75 in turn, nothing consumed, empty heap. *)
Definition world_cycle : World :=
  mkWorld (fun k => INR (k mod 4) / 4) 0 [].

(** Every draw 0.5. *)
Definition world_half : World := mkWorld (fun _ => 0.5) 0 [].

(** The cycle one step behind, three draws consumed, one array on the
    heap: the draws to come are those of [world_cycle]. *)
Definition world_cycle_later : World :=
  mkWorld (fun k => INR ((k + 1) mod 4) / 4) 3 [[1; 2]].

(** A stream that alternates between 0.25 and 0.75 every three draws, and
    a world with two of its draws consumed: the polar draws of a call made
    there are 0.25, 0.75, 0.25, ..., half of them in [0, 0.5). *)
Definition alternating (k : nat) : R :=
  if Nat.even (k / 3) then 0.25 else 0.75.

Definition world_alternating : World := mkWorld alternating 2 [].

(** ** The rest of the scene of [main.js] *)

(** [new THREE.SphereGeometry(16, 64, 64)]: the radius of the Earth mesh,
    and the scale factors of the two cloud meshes that share it. *)
Definition earth_radius : R := 16.
Definition innerCloud_scale : R := 1.00300.
Definition outerCloud_scale : R := 1.0125.

(** The clipping range of the camera and where it starts: a new camera
    sits at the origin, [camera.position.z = 64] moves it along z. *)
Definition near : R := 0.1.
Definition far : R := 1000.
Definition camera_position : R * R * R := (0, 0, 64).

Definition distance (p q : R * R * R) : R :=
  let '(x1, y1, z1) := p in
  let '(x2, y2, z2) := q in
  norm (x1 - x2, y1 - y2, z1 - z2).

(** Every third draw 0, from the draw at 2, and every other draw 0.9: the
    polar draws of the three calls of the scene are the draws at 5, 8, ...,
    so all stars are at the pole below, at nine tenths of the jitter. *)
Definition world_south : World :=
  mkWorld (fun k => if Nat.eqb (k mod 3) 2 then 0 else 0.9) 0 [].

(** ** Frames and resizes *)

(** What the callbacks of [main.js] read and write: the rotations of the
    three groups that turn, the opacity of the city-lights material, the
    size given to the renderer, the style of its canvas as far as the
    program sets it, the aspect of the camera, and how many times the
    scene was rendered.  A new group has rotation 0 about every axis. *)
Record Scene := mkScene {
  earthGroup_rotation_y : R;
  earthGroup_rotation_z : R;
  cloudGroup_rotation_y : R;
  starsGroup_rotation_y : R;
  lightsMesh_opacity : R;
  renderer_size : Z * Z;
  canvas_style : option (string * string);
  camera_aspect : R;
  rendered : nat
}.

(** The top of the script, for a window of the given inner size. *)
Definition initial_scene (innerWidth innerHeight : Z) : Scene :=
  let width := innerWidth in
  let height := innerHeight in
  let aspect := IZR width / IZR height in
  mkScene 0 (-23.4 * PI / 180) 0 0 0.5 (width, height) None aspect 0.

(** [animate()]: one frame.  [requestAnimationFrame(animate)] asks for the
    next one, which arrives as a [Frame] event. *)
Definition animate (s : Scene) : Scene :=
  mkScene (earthGroup_rotation_y s + 0.00100)
          (earthGroup_rotation_z s)
          (cloudGroup_rotation_y s + 0.00150)
          (starsGroup_rotation_y s - 0.00010)
          (lightsMesh_opacity s)
          (renderer_size s) (canvas_style s) (camera_aspect s)
          (S (rendered s)).

(** The listener of the window's ["resize"] event.  [width + "px"] is the
    decimal spelling of the integer followed by "px" (JavaScript spells an
    integer so up to 10^21). *)
Definition onResize (innerWidth innerHeight : Z) (s : Scene) : Scene :=
  let width := innerWidth in
  let height := innerHeight in
  mkScene (earthGroup_rotation_y s) (earthGroup_rotation_z s)
          (cloudGroup_rotation_y s) (starsGroup_rotation_y s)
          (lightsMesh_opacity s)
          (width, height)
          (Some (pretty width +:+ "px", pretty height +:+ "px"))
          (IZR width / IZR height)
          (rendered s).

(** The script ends with a call of [animate]. *)
Definition startup (innerWidth innerHeight : Z) : Scene :=
  animate (initial_scene innerWidth innerHeight).

Inductive Event :=
  | Frame
  | Resize (innerWidth innerHeight : Z).

Definition step (s : Scene) (e : Event) : Scene :=
  match e with
  | Frame => animate s
  | Resize innerWidth innerHeight => onResize innerWidth innerHeight s
  end.

Definition run (evs : list Event) (s : Scene) : Scene := foldl step s evs.

Definition is_frame (e : Event) : bool :=
  match e with Frame => true | Resize _ _ => false end.

(** Number of frames among the events. *)
Definition frames (evs : list Event) : nat :=
  length (List.filter is_frame evs).

(** ** City lights *)

Definition sunLight_position : R * R * R := (-2000, -1250, 1500).

(** The methods of three.js vectors that [updateNightLights] calls. *)
Module Vector3.

Definition length (v : R * R * R) : R := norm v.

Definition multiplyScalar (v : R * R * R) (s : R) : R * R * R :=
  let '(x, y, z) := v in (x * s, y * s, z * s).

Definition divideScalar (v : R * R * R) (s : R) : R * R * R :=
  multiplyScalar v (1 / s).

(** [divideScalar(length() || 1)]: a vector of length 0 is divided by 1. *)
Definition normalize (v : R * R * R) : R * R * R :=
  divideScalar v (if Req_dec_T (length v) 0 then 1 else length v).

Definition dot (a b : R * R * R) : R :=
  let '(x1, y1, z1) := a in
  let '(x2, y2, z2) := b in
  x1 * x2 + y1 * y2 + z1 * z2.

End Vector3.

(** [updateNightLights()].  [localToWorld] stands for
    [earthGroup.localToWorld], which three.js computes from the world
    matrix of the group: what it returns depends on the scene, on the
    rotation of the group as it was last rendered. *)
Definition updateNightLights
    (localToWorld : Scene -> R * R * R -> R * R * R) (s : Scene) : Scene :=
  let sunDirection := Vector3.normalize sunLight_position in
  let earthNormal := (0, 0, 1) in
  let earthNormal := localToWorld s earthNormal in
  let earthNormal := Vector3.normalize earthNormal in
  let dot := Vector3.dot sunDirection earthNormal in
  mkScene (earthGroup_rotation_y s) (earthGroup_rotation_z s)
          (cloudGroup_rotation_y s) (starsGroup_rotation_y s)
          (Rmax 0 (0.75 * (1 - Rmax 0 dot)))
          (renderer_size s) (canvas_style s) (camera_aspect s)
          (rendered s).

(** * Properties *)

(** ** The heap and the loop *)

Lemma alter_at {A} (f : A -> A) (l : list A) (a : nat) (b : A) :
  l !! a = Some b -> alter f a l = <[a := f b]> l.
Proof.
  revert a. induction l as [|h t IH]; intros [|a] H; simpl in *; try done.
  - by inversion H.
  - f_equal. by apply IH.
Qed.

Lemma alter_insert_at {A} (f : A -> A) (l : list A) (a : nat) (b : A) :
  (a < length l)%nat -> alter f a (<[a := b]> l) = <[a := f b]> l.
Proof.
  intros H. rewrite (alter_at f _ a b) by by apply list_lookup_insert_eq.
  apply list_insert_insert_eq.
Qed.

Lemma insert_triple {A} (pre rest : list A) (a b c x y z : A) :
  <[(length pre + 2)%nat := z]>
    (<[(length pre + 1)%nat := y]>
       (<[length pre := x]> (pre ++ a :: b :: c :: rest))) =
  pre ++ x :: y :: z :: rest.
Proof. induction pre as [|h t IH]; simpl; [done|]. by rewrite IH. Qed.

Lemma spec_cloud_length r d n : forall c, length (spec_cloud r d c n) = (3 * n)%nat.
Proof.
  induction n as [|n IH]; intros c; simpl; [done|].
  rewrite IH. lia.
Qed.

(** One pass of the loop body on a buffer whose first [3i] cells are written
    and whose next three are still there to be written. *)
Lemma star_body_run l r i w pre rest :
  buffers w !! l = Some (pre ++ 0 :: 0 :: 0 :: rest) ->
  length pre = (i * 3)%nat ->
  star_body l r i w =
    inr (tt, mkWorld (draws w) (S (S (S (drawn w))))
               (<[l := (pre ++ spec_cloud r (draws w) (drawn w) 1) ++ rest]>
                  (buffers w))).
Proof.
  intros Hl Hpre.
  unfold star_body, bind, Math.random, Float32Array.store; simpl.
  do 2 f_equal. f_equal.
  assert (Hlt : (l < length (buffers w))%nat) by by eapply lookup_lt_Some.
  rewrite (alter_at _ (buffers w) _ _ Hl).
  rewrite !alter_insert_at by done. f_equal.
  rewrite <- Hpre, insert_triple, <- app_assoc. simpl.
  unfold Math.sin, Math.cos, Math.acos, Math.PI.
  by replace (draws w (drawn w) * 2 * PI)
    with (draws w (drawn w) * (2 * PI)) by ring.
Qed.

(** The whole loop: [k] passes starting at index [i] fill the next [3k]
    cells with the next [k] points and consume [3k] draws. *)
Lemma for_loop_run l r k : forall i w pre rest,
  buffers w !! l = Some (pre ++ replicate (3 * k) 0 ++ rest) ->
  length pre = (i * 3)%nat ->
  for_loop k i (star_body l r) w =
    inr (tt, mkWorld (draws w) (drawn w + 3 * k)
               (<[l := (pre ++ spec_cloud r (draws w) (drawn w) k) ++ rest]>
                  (buffers w))).
Proof.
  induction k as [|k IH]; intros i w pre rest Hl Hpre.
  - simpl in *. unfold ret. rewrite app_nil_r, Nat.add_0_r.
    rewrite list_insert_id by done. by destruct w.
  - replace (3 * S k)%nat with (S (S (S (3 * k)))) in Hl by lia.
    cbn [replicate app] in Hl. cbn [for_loop]. unfold bind at 1.
    rewrite (star_body_run l r i w pre (replicate (3 * k) 0 ++ rest) Hl Hpre).
    assert (Hlt : (l < length (buffers w))%nat) by by eapply lookup_lt_Some.
    rewrite (IH (S i) _ (pre ++ spec_cloud r (draws w) (drawn w) 1) rest).
    + cbn [draws drawn buffers]. rewrite list_insert_insert_eq.
      do 3 f_equal; [lia|]. f_equal. cbn [spec_cloud]. unfold spec_point.
      by rewrite <- !app_assoc.
    + cbn [buffers]. rewrite list_lookup_insert_eq by done.
      by rewrite <- !app_assoc.
    + rewrite length_app, spec_cloud_length. lia.
Qed.

(** ** What a call of [getStarfield] does *)

Lemma bind_run {A B} (m : JS A) (k : A -> JS B) w a w' :
  m w = inr (a, w') -> bind m k w = k a w'.
Proof. intros H. unfold bind. by rewrite H. Qed.

(** Making a uuid moves the cursor of the random source by four. *)
Lemma generateUUID_run w :
  MathUtils.generateUUID w =
  inr (tt, mkWorld (draws w) (drawn w + 4) (buffers w)).
Proof.
  unfold MathUtils.generateUUID, bind, Math.random, ret. simpl.
  do 3 f_equal. lia.
Qed.

Lemma getStarfield_run arg w :
  (0 <= numStars_of arg)%Z ->
  getStarfield arg w = inr (starfield_at (length (buffers w)), world_after arg w).
Proof.
  intros Hn. unfold getStarfield.
  fold (numStars_of arg). fold (radius_of arg).
  set (n := numStars_of arg) in *. set (r := radius_of arg).
  unfold THREE.new_BufferGeometry, THREE.new_PointsMaterial, THREE.new_Points.
  rewrite (bind_run _ _ w (THREE.mkBufferGeometry ∅)
             (mkWorld (draws w) (loop_start w) (buffers w)))
    by (by rewrite (bind_run _ _ _ _ _ (generateUUID_run w))).
  unfold bind at 1. unfold Float32Array.new.
  destruct (Z.ltb_spec (n * 3) 0) as [Hneg|_]; [lia|].
  cbn [draws drawn buffers].
  unfold bind at 1.
  set (w1 := mkWorld _ _ _).
  rewrite (for_loop_run (length (buffers w)) r (Z.to_nat n) 0 w1 [] []).
  - set (w2 := mkWorld _ _ _).
    rewrite (bind_run _ _ w2 (THREE.mkPointsMaterial 16777215 0.01 true)
               (mkWorld (draws w2) (drawn w2 + 4) (buffers w2)))
      by (by rewrite (bind_run _ _ _ _ _ (generateUUID_run w2))).
    rewrite (bind_run _ _ _ _ _ (generateUUID_run _)).
    unfold ret, starfield_at, world_after. do 2 f_equal.
    subst w2 w1. cbn [draws drawn buffers]. fold n r. f_equal.
    + unfold loop_start. lia.
    + rewrite insert_app_r_alt, Nat.sub_diag by done.
      simpl. by rewrite app_nil_r.
  - subst w1. cbn [buffers].
    rewrite lookup_app_r, Nat.sub_diag by done. simpl.
    rewrite app_nil_r. do 2 f_equal. lia.
  - done.
Qed.

(** A negative count: the uuid of the geometry is made, then the
    allocation of the typed array throws. *)
Lemma getStarfield_throws arg w :
  (numStars_of arg < 0)%Z -> getStarfield arg w = inl RangeError.
Proof.
  intros Hn. unfold getStarfield.
  fold (numStars_of arg).
  unfold THREE.new_BufferGeometry.
  rewrite (bind_run _ _ w (THREE.mkBufferGeometry ∅)
             (mkWorld (draws w) (loop_start w) (buffers w)))
    by (by rewrite (bind_run _ _ _ _ _ (generateUUID_run w))).
  unfold bind at 1. unfold Float32Array.new.
  destruct (Z.ltb_spec (numStars_of arg * 3) 0) as [_|Hpos]; [done|lia].
Qed.

Lemma getStarfield_options count r w :
  (0 <= count)%Z ->
  getStarfield (options count r) w =
    inr (starfield_at (length (buffers w)),
         mkWorld (draws w) (drawn w + 3 * Z.to_nat count + 12)
           (buffers w ++ [spec_cloud r (draws w) (loop_start w) (Z.to_nat count)])).
Proof. intros Hc. by rewrite getStarfield_run. Qed.

Lemma positions_after arg w :
  positions (world_after arg w) (starfield_at (length (buffers w))) =
  Some (spec_cloud (radius_of arg) (draws w) (loop_start w)
          (Z.to_nat (numStars_of arg))).
Proof.
  unfold positions, starfield_at, THREE.setAttribute. cbn.
  rewrite lookup_insert_eq. cbn.
  rewrite lookup_app_r, Nat.sub_diag by done. done.
Qed.

Lemma item_size_at l :
  THREE.itemSize <$>
    (THREE.attributes (THREE.geometry (starfield_at l)) !! "position"%string)
  = Some 3%nat.
Proof.
  unfold starfield_at, THREE.setAttribute. cbn.
  by rewrite lookup_insert_eq.
Qed.

Lemma positions_at w l :
  positions w (starfield_at l) = buffers w !! l.
Proof.
  unfold positions, starfield_at, THREE.setAttribute. cbn.
  by rewrite lookup_insert_eq.
Qed.

Lemma position_array_at l : position_array (starfield_at l) = Some l.
Proof.
  unfold position_array, starfield_at, THREE.setAttribute. cbn.
  by rewrite lookup_insert_eq.
Qed.

(** A call with explicit parameters and a non-negative count returns, and
    the buffer behind its position attribute is the cloud of its draws. *)
Lemma getStarfield_cloud (count : Z) (r : R) (w : World) :
  (0 <= count)%Z ->
  exists p w',
    getStarfield (options count r) w = inr (p, w') /\
    positions w' p =
      Some (spec_cloud r (draws w) (loop_start w) (Z.to_nat count)) /\
    p = starfield_at (length (buffers w)).
Proof.
  intros Hc.
  exists (starfield_at (length (buffers w))),
         (world_after (options count r) w).
  split; [by apply getStarfield_run|].
  split; [apply positions_after|done].
Qed.

(** A store into one typed array leaves every other array as it was. *)
Lemma store_other (a : loc) (k : nat) (x : R) (w : World) (q : THREE.Points) l :
  position_array q = Some l -> l <> a ->
  exists w'', Float32Array.store a k x w = inr (tt, w'') /\
              positions w'' q = positions w q.
Proof.
  intros Hq Hne. eexists. split; [reflexivity|].
  unfold positions, position_array in *. cbn [buffers].
  destruct (THREE.attributes (THREE.geometry q) !! "position"%string)
    as [attr|]; [|done].
  cbn in Hq. apply (inj Some) in Hq. rewrite Hq.
  by apply list_lookup_alter_ne.
Qed.

(** ** Reading points off a cloud *)

Lemma point_at_S (x y z : R) (b : list R) (i : nat) :
  point_at (x :: y :: z :: b) (S i) = point_at b i.
Proof.
  unfold point_at.
  by replace (3 * S i)%nat with (S (S (S (3 * i)))) by lia.
Qed.

Lemma point_at_Some (b : list R) (i : nat) (x y z : R) :
  point_at b i = Some (x, y, z) <->
  b !! (3 * i)%nat = Some x /\ b !! (3 * i + 1)%nat = Some y /\
  b !! (3 * i + 2)%nat = Some z.
Proof.
  unfold point_at.
  destruct (b !! (3 * i)%nat), (b !! (3 * i + 1)%nat), (b !! (3 * i + 2)%nat);
    split; intros H; try discriminate; try (by destruct H as (?&?&?)).
  - by inversion H.
  - destruct H as (H1 & H2 & H3). by inversion H1; inversion H2; inversion H3.
Qed.

(** Point [i] of a cloud is the sampling rule applied to its three draws. *)
Lemma spec_cloud_point r d n : forall c i, (i < n)%nat ->
  point_at (spec_cloud r d c n) i =
  Some (spec_point r (d (c + 3 * i)%nat) (d (c + 3 * i + 1)%nat)
          (d (c + 3 * i + 2)%nat)).
Proof.
  induction n as [|n IH]; intros c i Hi; [lia|].
  destruct i as [|i].
  - cbn [spec_cloud]. unfold spec_point, point_at. simpl.
    replace (c + 0 + 2)%nat with (S (S c)) by lia.
    replace (c + 0 + 1)%nat with (S c) by lia.
    by replace (c + 0)%nat with c by lia.
  - specialize (IH (S (S (S c))) i ltac:(lia)).
    cbn [spec_cloud]. unfold spec_point at 1.
    rewrite point_at_S, IH. do 2 f_equal; f_equal; lia.
Qed.

Lemma spec_cloud_point_none r d n c i :
  (n <= i)%nat -> point_at (spec_cloud r d c n) i = None.
Proof.
  intros Hi. unfold point_at.
  rewrite (lookup_ge_None_2 _ (3 * i)%nat); [done|].
  rewrite spec_cloud_length. lia.
Qed.

(** The cloud depends only on the [3n] draws it consumes. *)
(** Every point of a cloud is one of its [n] samples. *)
Lemma spec_cloud_point_inv r d n c i pt :
  point_at (spec_cloud r d c n) i = Some pt ->
  (i < n)%nat /\
  pt = spec_point r (d (c + 3 * i)%nat) (d (c + 3 * i + 1)%nat)
         (d (c + 3 * i + 2)%nat).
Proof.
  intros H. destruct (Nat.lt_ge_cases i n) as [Hi|Hi].
  - rewrite spec_cloud_point in H by exact Hi.
    apply (inj Some) in H. by split.
  - rewrite spec_cloud_point_none in H by exact Hi. discriminate.
Qed.

Lemma spec_cloud_ext r d1 d2 n : forall c1 c2,
  (forall k, (k < 3 * n)%nat -> d1 (c1 + k)%nat = d2 (c2 + k)%nat) ->
  spec_cloud r d1 c1 n = spec_cloud r d2 c2 n.
Proof.
  induction n as [|n IH]; intros c1 c2 H; [done|].
  cbn [spec_cloud]. unfold spec_point.
  pose proof (H 0%nat ltac:(lia)) as H0.
  pose proof (H 1%nat ltac:(lia)) as H1.
  pose proof (H 2%nat ltac:(lia)) as H2.
  rewrite !Nat.add_0_r in H0.
  rewrite !Nat.add_1_r in H1.
  replace (c1 + 2)%nat with (S (S c1)) in H2 by lia.
  replace (c2 + 2)%nat with (S (S c2)) in H2 by lia.
  rewrite H0, H1, H2. do 3 f_equal.
  apply IH. intros k Hk.
  replace (S (S (S c1)) + k)%nat with (c1 + (3 + k))%nat by lia.
  replace (S (S (S c2)) + k)%nat with (c2 + (3 + k))%nat by lia.
  apply H. lia.
Qed.

(** ** Geometry of one sample *)

Lemma norm_sphere (d sp cp st ct : R) :
  sp * sp + cp * cp = 1 -> st * st + ct * ct = 1 ->
  norm (d * sp * ct, d * sp * st, d * cp) = Rabs d.
Proof.
  intros Hp Ht. unfold norm.
  replace (d * sp * ct * (d * sp * ct) + d * sp * st * (d * sp * st) +
           d * cp * (d * cp))
    with (d * d * (sp * sp * (st * st + ct * ct) + cp * cp)) by ring.
  rewrite Ht, Rmult_1_r, Hp, Rmult_1_r.
  apply sqrt_Rsqr_abs.
Qed.

Lemma sin_cos_unit (a : R) : sin a * sin a + cos a * cos a = 1.
Proof. exact (sin2_cos2 a). Qed.

(** A sample lies at distance |d| from the origin, whatever the draws. *)
Lemma norm_spec_point r ut up uj :
  norm (spec_point r ut up uj) = Rabs (r * (0.8 + 0.2 * uj)).
Proof. unfold spec_point. apply norm_sphere; apply sin_cos_unit. Qed.

Lemma jitter_band r v :
  0 <= r -> 0 <= v < 1 ->
  0.8 * r <= r * (0.8 + 0.2 * v) <= r.
Proof. intros Hr [H0 H1]. split; nra. Qed.



Lemma spec_point_zero ut up uj : spec_point 0 ut up uj = (0, 0, 0).
Proof. unfold spec_point. f_equal; [f_equal|]; ring. Qed.

(** ** Latitude bands *)

Lemma sample_cloud n r w : sample n r w = spec_cloud r (draws w) (loop_start w) n.
Proof.
  unfold sample. rewrite getStarfield_options by lia.
  rewrite positions_at. cbn [buffers].
  rewrite lookup_app_r, Nat.sub_diag by done.
  cbn [lookup list_lookup default]. by rewrite Nat2Z.id.
Qed.

Lemma polar_cos_spec_point r ut up uj :
  0 < r -> 0 <= up < 1 -> 0 <= uj < 1 ->
  polar_cos (spec_point r ut up uj) = 2 * up - 1.
Proof.
  intros Hr Hp Hj.
  pose proof (norm_spec_point r ut up uj) as Hnorm.
  unfold spec_point in *. cbv zeta in *. unfold polar_cos. rewrite Hnorm.
  assert (Hd : 0 < r * (0.8 + 0.2 * uj)) by nra.
  rewrite Rabs_pos_eq by lra.
  rewrite cos_acos by lra. field. lra.
Qed.

Lemma between_spec lo hi x : between lo hi x = true <-> lo <= x < hi.
Proof.
  unfold between. destruct (Rle_dec lo x), (Rlt_dec x hi); split;
    intros H; try discriminate; try done; lra.
Qed.

Lemma between_affine a1 a2 u :
  between a1 a2 (2 * u - 1) = between ((1 + a1) / 2) ((1 + a2) / 2) u.
Proof.
  apply eq_true_iff_eq. rewrite !between_spec. lra.
Qed.

Section Bands.

Variables (r : R) (w : World).
Hypothesis Hr : 0 < r.
Hypothesis Hu : unit_draws (draws w).

(** Counting points in a band is counting polar draws in an interval. *)
Lemma band_count_cloud a1 a2 n :
  forall m, (m <= n)%nat ->
    band_count (spec_cloud r (draws w) (loop_start w) n) a1 a2 m =
    draw_count (phi_draw w) ((1 + a1) / 2) ((1 + a2) / 2) m.
Proof.
  induction m as [|m IH]; intros Hm; [done|].
  cbn [band_count draw_count]. rewrite IH by lia. f_equal.
  rewrite spec_cloud_point by lia.
  rewrite polar_cos_spec_point by (exact Hr || apply Hu).
  unfold phi_draw. by rewrite between_affine.
Qed.

Lemma fractions_agree a1 a2 n :
  band_fraction r w a1 a2 n =
  draw_fraction w ((1 + a1) / 2) ((1 + a2) / 2) n.
Proof.
  unfold band_fraction, draw_fraction.
  by rewrite sample_cloud, (band_count_cloud a1 a2 n n).
Qed.

End Bands.

(** The share of area within polar angle [phi] grows at the rate
    [sin phi / 2], the area element of the sphere over its area. *)
Lemma cap_area_density phi :
  derivable_pt_lim cap_area_fraction phi (sin phi / 2).
Proof.
  unfold cap_area_fraction.
  replace (sin phi / 2) with ((0 - - sin phi) * / 2) by field.
  apply (derivable_pt_lim_scal_right (fun x => 1 - cos x) phi _ (/ 2)).
  apply (derivable_pt_lim_minus (fct_cte 1) cos).
  - apply derivable_pt_lim_const.
  - apply derivable_pt_lim_cos.
Qed.

Lemma band_area_caps phi1 phi2 :
  band_area_fraction (cos phi2) (cos phi1) =
  cap_area_fraction phi2 - cap_area_fraction phi1.
Proof. unfold band_area_fraction, cap_area_fraction. field. Qed.

(** ** A stream whose polar draws are spread evenly over two halves *)

Lemma alternating_unit : unit_draws alternating.
Proof. intros k. unfold alternating. destruct (Nat.even (k / 3)); lra. Qed.

Lemma alternating_phi (bs : list (list R)) (i : nat) :
  phi_draw (mkWorld alternating 2 bs) i =
  if Nat.even i then 0.25 else 0.75.
Proof.
  unfold phi_draw, loop_start, alternating. cbn [draws drawn].
  replace (2 + 4 + 3 * i + 1)%nat with ((S (S i)) * 3 + 1)%nat by lia.
  rewrite Nat.div_add_l by lia.
  by rewrite (Nat.div_small 1 3), Nat.add_0_r by lia.
Qed.

Lemma alternating_count (bs : list (list R)) (n : nat) :
  (2 * draw_count (phi_draw (mkWorld alternating 2 bs)) 0 0.5 n =
   n + Nat.b2n (Nat.odd n))%nat.
Proof.
  induction n as [|n IH]; [done|].
  cbn [draw_count].
  rewrite (alternating_phi bs n).
  rewrite Nat.odd_succ. unfold Nat.odd in IH.
  destruct (Nat.even n) eqn:E; cbn [negb Nat.b2n] in *.
  - replace (between 0 0.5 0.25) with true
      by (symmetry; apply between_spec; lra). lia.
  - replace (between 0 0.5 0.75) with false.
    + lia.
    + symmetry. apply not_true_is_false. rewrite between_spec. lra.
Qed.

Lemma alternating_half (bs : list (list R)) :
  Un_cv (draw_fraction (mkWorld alternating 2 bs) 0 0.5) 0.5.
Proof.
  intros eps Heps.
  destruct (archimed_cor1 eps Heps) as (N & HN & HNpos).
  exists N. intros n Hn.
  assert (Hn0 : (0 < n)%nat) by lia.
  assert (HnR : 0 < INR n) by (apply lt_0_INR; lia).
  assert (HNR : 0 < INR N) by (apply lt_0_INR; lia).
  assert (HNn : INR N <= INR n) by (apply le_INR; lia).
  unfold draw_fraction, R_dist.
  pose proof (alternating_count bs n) as Hc.
  apply (f_equal INR) in Hc. rewrite mult_INR, plus_INR in Hc.
  change (INR 2) with 2 in Hc.
  set (c := INR (draw_count _ _ _ n)) in *.
  assert (Hb : 0 <= INR (Nat.b2n (Nat.odd n)) <= 1)
    by (destruct (Nat.odd n); simpl; lra).
  set (b := INR (Nat.b2n (Nat.odd n))) in *.
  assert (Hc' : c = (INR n + b) / 2) by lra.
  assert (E : c / INR n - 0.5 = b / (2 * INR n)).
  { rewrite Hc'. clearbody b c. replace 0.5 with (/ 2) by lra. field. lra. }
  rewrite E.
  assert (Hq : 0 <= b / (2 * INR n) <= / INR N).
  { split.
    - apply Rmult_le_pos; [lra|]. apply Rlt_le, Rinv_0_lt_compat. lra.
    - apply Rle_trans with (1 / (2 * INR n)).
      + apply Rmult_le_compat_r; [apply Rlt_le, Rinv_0_lt_compat|]; lra.
      + unfold Rdiv. rewrite Rmult_1_l. apply Rinv_le_contravar; lra. }
  rewrite Rabs_pos_eq; lra.
Qed.

(** * The claims of the specification *)

(** C1. For every count >= 0, [getStarfield({numStars: count, radius: r})]
    returns a point cloud of exactly [count] points of three coordinates
    each, laid out in generation order: the position attribute has item
    size 3, the buffer has [3 * count] cells, point [i] occupies the cells
    [3i], [3i+1], [3i+2] and is the point made from the [i]-th triple of
    draws of the loop (the loop begins after the four draws of the
    geometry's uuid), and there is no point beyond [count].  For
    [count = 0] the buffer
    is empty, for [count = 1] it holds exactly one point. *)
Theorem C1_exactly_count_points (count : Z) (r : R) (w : World) :
  (0 <= count)%Z ->
  exists p w' b,
    getStarfield (options count r) w = inr (p, w') /\
    positions w' p = Some b /\
    THREE.itemSize <$>
      (THREE.attributes (THREE.geometry p) !! "position"%string)
      = Some 3%nat /\
    length b = (3 * Z.to_nat count)%nat /\
    point_count b = Z.to_nat count /\
    (forall i, (i < Z.to_nat count)%nat ->
       exists x y z,
         b !! (3 * i)%nat = Some x /\ b !! (3 * i + 1)%nat = Some y /\
         b !! (3 * i + 2)%nat = Some z /\
         (x, y, z) = spec_point r (draws w (loop_start w + 3 * i)%nat)
                       (draws w (loop_start w + 3 * i + 1)%nat)
                       (draws w (loop_start w + 3 * i + 2)%nat)) /\
    (forall i, (Z.to_nat count <= i)%nat -> point_at b i = None) /\
    (count = 0%Z -> b = []) /\
    (count = 1%Z -> exists x y z, b = [x; y; z]).
Proof.
  intros Hc.
  destruct (getStarfield_cloud count r w Hc) as (p & w' & Hrun & Hpos & Hat).
  exists p, w', (spec_cloud r (draws w) (loop_start w) (Z.to_nat count)).
  split; [exact Hrun|]. split; [exact Hpos|].
  split; [rewrite Hat; apply item_size_at|].
  split; [|split; [|split; [|split; [|split]]]].
  - apply spec_cloud_length.
  - unfold point_count. rewrite spec_cloud_length.
    by rewrite Nat.mul_comm, Nat.div_mul.
  - intros i Hi.
    pose proof (spec_cloud_point r (draws w) _ (loop_start w) i Hi) as Hp.
    destruct (spec_point r _ _ _) as [[x y] z] eqn:E.
    exists x, y, z. apply point_at_Some in Hp. by destruct Hp as (?&?&?).
  - intros i Hi. by apply spec_cloud_point_none.
  - by intros ->.
  - intros ->. change (Z.to_nat 1) with 1%nat. cbn [spec_cloud].
    destruct (spec_point r _ _ _) as [[x y] z]. by exists x, y, z.
Qed.

(** Four points at radius 10 from the draws 0, 0.25, 0.5, 0.75 in turn. *)
Lemma C1_exactly_count_points_witness :
  (0 <= 4)%Z /\
  exists p w' b,
    getStarfield (options 4 10) world_cycle = inr (p, w') /\
    positions w' p = Some b /\ point_count b = 4%nat.
Proof.
  split; [lia|].
  destruct (C1_exactly_count_points 4 10 world_cycle ltac:(lia))
    as (p & w' & b & Hrun & Hpos & _ & _ & Hcount & _).
  exists p, w', b. exact (conj Hrun (conj Hpos Hcount)).
Defined.



(** C3. Point [i] of the cloud is made from the three draws the loop
    consumes at positions [3i], [3i+1], [3i+2] from its start, in that
    order, as u_theta, u_phi, u_jit:  theta = u_theta * 2 * pi,
    phi = acos (2 * u_phi - 1), d = radius * (0.8 + 0.2 * u_jit), and the
    stored triple is
    (d * sin phi * cos theta, d * sin phi * sin theta, d * cos phi). *)
Theorem C3_sampling_rule (count : Z) (radius : R) (w : World) (i : nat) :
  (0 <= count)%Z -> (i < Z.to_nat count)%nat ->
  exists p w' b,
    getStarfield (options count radius) w = inr (p, w') /\
    positions w' p = Some b /\
    let u_theta := draws w (loop_start w + 3 * i)%nat in
    let u_phi := draws w (loop_start w + 3 * i + 1)%nat in
    let u_jit := draws w (loop_start w + 3 * i + 2)%nat in
    let theta := u_theta * 2 * PI in
    let phi := acos (2 * u_phi - 1) in
    let d := radius * (0.8 + 0.2 * u_jit) in
    point_at b i =
      Some (d * sin phi * cos theta, d * sin phi * sin theta, d * cos phi) /\
    (d * sin phi * cos theta, d * sin phi * sin theta, d * cos phi) =
      spec_point radius u_theta u_phi u_jit.
Proof.
  intros Hc Hi.
  destruct (getStarfield_cloud count radius w Hc)
    as (p & w' & Hrun & Hpos & _).
  exists p, w', (spec_cloud radius (draws w) (loop_start w) (Z.to_nat count)).
  split; [exact Hrun|]. split; [exact Hpos|].
  cbv zeta. rewrite spec_cloud_point by exact Hi. unfold spec_point.
  replace (draws w (loop_start w + 3 * i)%nat * 2 * PI)
    with (draws w (loop_start w + 3 * i)%nat * (2 * PI)) by ring.
  split; reflexivity.
Qed.

(** The third of four points at radius 10. *)
Lemma C3_sampling_rule_witness :
  (0 <= 4)%Z /\ (2 < Z.to_nat 4)%nat /\
  exists p w' b,
    getStarfield (options 4 10) world_cycle = inr (p, w') /\
    positions w' p = Some b /\
    is_Some (point_at b 2).
Proof.
  split; [lia|]. split; [simpl; lia|].
  destruct (C3_sampling_rule 4 10 world_cycle 2 ltac:(lia) ltac:(simpl; lia))
    as (p & w' & b & Hrun & Hpos & Hpt & _).
  exists p, w', b. split; [exact Hrun|]. split; [exact Hpos|].
  rewrite Hpt. eexists. reflexivity.
Defined.

(** C4. The polar angle of a generated point is phi = acos (2u - 1) for
    the call's second draw u of that point, it is not drawn itself, so
    cos phi = 2u - 1.  Hence a point lies in the latitude band between the
    heights a1 and a2 exactly when u lies in the interval from (1 + a1) / 2
    to (1 + a2) / 2, whose length is the band's share of the sphere's area:
    bands of equal area are intervals of u of equal length.  In a sample of
    any size the fraction of points in a band is the fraction of polar
    draws in its interval, so when the draws are spread uniformly (their
    fraction in the interval tends to its length) the fraction of points
    in the band tends to the band's area fraction. *)
Theorem C4_polar_angle_transform (radius : R) (w : World) :
  0 < radius -> unit_draws (draws w) ->
  (forall n i, (i < n)%nat ->
     exists pt,
       point_at (sample n radius w) i = Some pt /\
       polar_angle pt = acos (2 * phi_draw w i - 1) /\
       cos (polar_angle pt) = 2 * phi_draw w i - 1) /\
  (forall n i pt a1 a2,
     point_at (sample n radius w) i = Some pt ->
     (a1 <= cos (polar_angle pt) < a2 <->
      (1 + a1) / 2 <= phi_draw w i < (1 + a2) / 2)) /\
  (forall a1 a2, (1 + a2) / 2 - (1 + a1) / 2 = band_area_fraction a1 a2) /\
  (forall a1 a2 n,
     band_fraction radius w a1 a2 n =
     draw_fraction w ((1 + a1) / 2) ((1 + a2) / 2) n) /\
  (forall a1 a2,
     Un_cv (draw_fraction w ((1 + a1) / 2) ((1 + a2) / 2))
           (band_area_fraction a1 a2) ->
     Un_cv (band_fraction radius w a1 a2) (band_area_fraction a1 a2)).
Proof.
  intros Hr Hu.
  assert (Hpt : forall n i pt,
    point_at (sample n radius w) i = Some pt ->
    polar_cos pt = 2 * phi_draw w i - 1).
  { intros n i pt H. rewrite sample_cloud in H.
    apply spec_cloud_point_inv in H as [_ ->].
    by rewrite polar_cos_spec_point by (exact Hr || apply Hu). }
  assert (Hrange : forall i, -1 <= 2 * phi_draw w i - 1 <= 1).
  { intros i. unfold phi_draw.
    destruct (Hu (loop_start w + 3 * i + 1)%nat). lra. }
  split; [|split; [|split; [|split]]].
  - intros n i Hi.
    assert (Hs : is_Some (point_at (sample n radius w) i)).
    { rewrite sample_cloud, spec_cloud_point by exact Hi. by eexists. }
    destruct Hs as [pt Hs]. exists pt. split; [exact Hs|].
    unfold polar_angle. rewrite (Hpt n i pt Hs).
    split; [reflexivity|]. apply cos_acos, Hrange.
  - intros n i pt a1 a2 H. unfold polar_angle. rewrite (Hpt n i pt H).
    rewrite cos_acos by apply Hrange. lra.
  - intros a1 a2. unfold band_area_fraction. field.
  - intros a1 a2 n. by apply fractions_agree.
  - intros a1 a2 Hcv eps Heps.
    destruct (Hcv eps Heps) as [N HN]. exists N. intros n Hn.
    rewrite fractions_agree by done. by apply HN.
Qed.

(** With polar draws alternating between 0.25 and 0.75 half of the points
    fall in the southern hemisphere, half of the sphere's area. *)
Lemma C4_polar_angle_transform_witness :
  0 < 10 /\ unit_draws (draws world_alternating) /\
  (exists pt, point_at (sample 4 10 world_alternating) 2 = Some pt /\
              cos (polar_angle pt) = 2 * 0.25 - 1) /\
  Un_cv (draw_fraction world_alternating ((1 + -1) / 2) ((1 + 0) / 2))
        (band_area_fraction (-1) 0) /\
  Un_cv (band_fraction 10 world_alternating (-1) 0)
        (band_area_fraction (-1) 0).
Proof.
  set (w0 := world_alternating).
  assert (Hr : 0 < 10) by lra.
  assert (Hu : unit_draws (draws w0)) by exact alternating_unit.
  assert (Hcv : Un_cv (draw_fraction w0 ((1 + -1) / 2) ((1 + 0) / 2))
                  (band_area_fraction (-1) 0)).
  { unfold band_area_fraction.
    replace ((1 + -1) / 2) with 0 by lra.
    replace ((1 + 0) / 2) with 0.5 by lra.
    replace ((0 - -1) / 2) with 0.5 by lra.
    apply alternating_half. }
  destruct (C4_polar_angle_transform 10 w0 Hr Hu)
    as (Hangle & _ & _ & _ & Hband).
  split; [exact Hr|]. split; [exact Hu|]. split; [|split].
  - destruct (Hangle 4%nat 2%nat ltac:(lia)) as (pt & Hpt & _ & Hcos).
    exists pt. split; [exact Hpt|].
    rewrite Hcos. unfold w0, world_alternating. by rewrite alternating_phi.
  - exact Hcv.
  - apply Hband, Hcv.
Defined.

(** C5. With the random source an explicit stream, [getStarfield] is
    deterministic: two calls with the same parameters whose streams agree
    on the draws still to come produce the same sequence of points (and
    both throw when the count is negative). *)
Theorem C5_deterministic (arg : option StarfieldOptions) (w1 w2 : World) :
  (forall k, draws w1 (drawn w1 + k)%nat = draws w2 (drawn w2 + k)%nat) ->
  match getStarfield arg w1, getStarfield arg w2 with
  | inr (p1, w1'), inr (p2, w2') =>
      is_Some (positions w1' p1) /\
      positions w1' p1 = positions w2' p2 /\
      (forall k, draws w1' (drawn w1' + k)%nat = draws w2' (drawn w2' + k)%nat)
  | inl e1, inl e2 => e1 = e2
  | _, _ => False
  end.
Proof.
  intros Hd.
  destruct (Z.lt_ge_cases (numStars_of arg) 0) as [Hn|Hn].
  - by rewrite !getStarfield_throws by exact Hn.
  - rewrite !getStarfield_run by exact Hn.
    rewrite !positions_after. split; [by eexists|]. split.
    + f_equal. apply spec_cloud_ext. intros k _.
      unfold loop_start. rewrite <- !Nat.add_assoc. apply Hd.
    + intros k. cbn [world_after draws drawn].
      rewrite <- !Nat.add_assoc. apply Hd.
Qed.

(** Two worlds with different heaps and cursors but the same draws to
    come. *)
Lemma C5_deterministic_witness :
  (forall k, draws world_cycle (drawn world_cycle + k)%nat =
             draws world_cycle_later (drawn world_cycle_later + k)%nat) /\
  match getStarfield (options 4 10) world_cycle,
        getStarfield (options 4 10) world_cycle_later with
  | inr (p1, w1'), inr (p2, w2') =>
      is_Some (positions w1' p1) /\
      positions w1' p1 = positions w2' p2 /\
      (forall k, draws w1' (drawn w1' + k)%nat = draws w2' (drawn w2' + k)%nat)
  | inl e1, inl e2 => e1 = e2
  | _, _ => False
  end.
Proof.
  assert (H : forall k, draws world_cycle (drawn world_cycle + k)%nat =
                draws world_cycle_later (drawn world_cycle_later + k)%nat).
  { intros k. unfold world_cycle, world_cycle_later. cbn [draws drawn].
    replace (3 + k + 1)%nat with (0 + k + 1 * 4)%nat by lia.
    rewrite Nat.Div0.mod_add. reflexivity. }
  split; [exact H|].
  exact (C5_deterministic (options 4 10) world_cycle world_cycle_later H).
Defined.

(** C6, as the specification states it, fails on the code: a negative count
    is rejected with a RangeError by the typed-array allocation, and a
    radius of 0 with a positive count gives a buffer that is neither empty
    nor non-finite (one point, the three cells 0). *)
Lemma C6_counterexample :
  getStarfield (options (-1) 25) world_half = inl RangeError /\
  ~ degenerate_result (getStarfield (options (-1) 25) world_half) /\
  (exists p w', getStarfield (options 1 0) world_half = inr (p, w') /\
                positions w' p = Some [0; 0; 0]) /\
  ~ degenerate_result (getStarfield (options 1 0) world_half).
Proof.
  assert (H1 : getStarfield (options (-1) 25) world_half = inl RangeError)
    by reflexivity.
  assert (H2 : getStarfield (options 1 0) world_half =
               inr (starfield_at 0%nat,
                    mkWorld (fun _ => 0.5) 15
                      [spec_cloud 0 (fun _ => 0.5) 4%nat 1])).
  { rewrite getStarfield_options by lia. reflexivity. }
  assert (H3 : spec_cloud 0 (fun _ => 0.5) 4%nat 1 = [0; 0; 0]).
  { cbn [spec_cloud]. rewrite spec_point_zero. reflexivity. }
  split; [exact H1|]. split; [rewrite H1; exact (fun F => F)|]. split.
  - eexists _, _. split; [exact H2|]. rewrite positions_at.
    cbn [buffers lookup list_lookup]. rewrite H3. reflexivity.
  - rewrite H2. unfold degenerate_result. rewrite positions_at.
    cbn [buffers lookup list_lookup]. rewrite H3. discriminate.
Qed.

(** C6, amended.  [getStarfield] has no validation of its own.  A count of
    0 gives an empty point cloud without error, whatever the radius.  A
    negative count does not return: the allocation of the typed array
    throws a RangeError.  A radius <= 0 with a positive count signals no
    error and gives a cloud that is not empty: it holds exactly [count]
    points, and when the radius is 0 every one of them is the origin. *)
Theorem C6_no_validation (count : Z) (radius : R) (w : World) :
  (count = 0%Z ->
     exists p w',
       getStarfield (options count radius) w = inr (p, w') /\
       positions w' p = Some []) /\
  ((count < 0)%Z ->
     getStarfield (options count radius) w = inl RangeError) /\
  ((0 < count)%Z -> radius <= 0 ->
     exists p w' b,
       getStarfield (options count radius) w = inr (p, w') /\
       positions w' p = Some b /\
       b <> [] /\ length b = (3 * Z.to_nat count)%nat /\
       point_count b = Z.to_nat count /\
       (forall i, (i < Z.to_nat count)%nat -> is_Some (point_at b i)) /\
       (radius = 0 ->
          forall i, (i < Z.to_nat count)%nat ->
            point_at b i = Some (0, 0, 0))).
Proof.
  split; [|split].
  - intros ->. destruct (getStarfield_cloud 0 radius w ltac:(lia))
      as (p & w' & Hrun & Hpos & _).
    exists p, w'. split; [exact Hrun | exact Hpos].
  - intros Hneg. by apply getStarfield_throws.
  - intros Hpos Hr.
    destruct (getStarfield_cloud count radius w ltac:(lia))
      as (p & w' & Hrun & Hb & _).
    set (n := Z.to_nat count) in *.
    exists p, w', (spec_cloud radius (draws w) (loop_start w) n).
    split; [exact Hrun|]. split; [exact Hb|].
    split; [|split; [|split; [|split]]].
    + intros Hnil. apply (f_equal length) in Hnil.
      rewrite spec_cloud_length in Hnil. simpl in Hnil. lia.
    + apply spec_cloud_length.
    + unfold point_count. rewrite spec_cloud_length.
      by rewrite Nat.mul_comm, Nat.div_mul.
    + intros i Hi. rewrite spec_cloud_point by exact Hi. by eexists.
    + intros -> i Hi. rewrite spec_cloud_point by exact Hi.
      by rewrite spec_point_zero.
Qed.

(** A negative count, a count of 0, and two points at radius 0. *)
Lemma C6_no_validation_witness :
  getStarfield (options (-3) (-1)) world_half = inl RangeError /\
  (exists p w',
     getStarfield (options 0 0) world_half = inr (p, w') /\
     positions w' p = Some []) /\
  exists p w' b,
    getStarfield (options 2 0) world_half = inr (p, w') /\
    positions w' p = Some b /\ point_at b 1 = Some (0, 0, 0).
Proof.
  split; [|split].
  - apply (C6_no_validation (-3) (-1) world_half). lia.
  - by apply (C6_no_validation 0 0 world_half).
  - destruct (C6_no_validation 2 0 world_half) as (_ & _ & H).
    destruct (H ltac:(lia) ltac:(lra))
      as (p & w' & b & Hrun & Hpos & _ & _ & _ & _ & Hz).
    exists p, w', b. split; [exact Hrun|]. split; [exact Hpos|].
    apply Hz; [reflexivity | simpl; lia].
Defined.

(** C7. Called with no argument object, or with fields left out,
    [getStarfield] behaves exactly as the call that gives the missing
    parameters as numStars = 10 and radius = 25. *)
Theorem C7_defaults :
  getStarfield None = getStarfield (options 10 25) /\
  getStarfield (Some (mkOptions None None)) = getStarfield (options 10 25) /\
  (forall n, getStarfield (Some (mkOptions (Some n) None))
             = getStarfield (options n 25)) /\
  (forall r, getStarfield (Some (mkOptions None (Some r)))
             = getStarfield (options 10 r)) /\
  (forall w, exists p w' b,
     getStarfield None w = inr (p, w') /\
     positions w' p = Some b /\
     b = spec_cloud 25 (draws w) (loop_start w) 10 /\
     point_count b = 10%nat).
Proof.
  assert (Hdef : forall arg n r,
            numStars_of arg = n -> radius_of arg = r ->
            getStarfield arg = getStarfield (options n r)).
  { intros arg n r <- <-. unfold getStarfield.
    fold (numStars_of arg). fold (radius_of arg). reflexivity. }
  split; [by apply Hdef|]. split; [by apply Hdef|].
  split; [intros n; by apply Hdef|]. split; [intros r; by apply Hdef|].
  intros w.
  destruct (getStarfield_cloud 10 25 w ltac:(lia))
    as (p & w' & Hrun & Hpos & _).
  exists p, w', (spec_cloud 25 (draws w) (loop_start w) 10).
  rewrite (Hdef None 10%Z 25 eq_refl eq_refl).
  split; [exact Hrun|]. split; [exact Hpos|]. split; [reflexivity|].
  unfold point_count. by rewrite spec_cloud_length.
Qed.

(** C8. At startup [main.js] calls the sampler three times, each with 500
    stars, at the pairwise distinct radii 500, 750 and 1000.  The three
    calls run one after the other on the ambient random source (each
    moves its cursor by 3 * 500 + 12), each allocates a typed array of its
    own, and the three point clouds share no state: a store into the
    array of one layer leaves the other two layers as they were. *)
Theorem C8_three_layers (w : World) :
  let n := Z.to_nat stars in
  let l := length (buffers w) in
  exists low med high w1 w2 w3,
    main_starfield w = inr ([low; med; high], w3) /\
    stars = 500%Z /\
    getStarfield (options stars 500) w = inr (low, w1) /\
    getStarfield (options stars 750) w1 = inr (med, w2) /\
    getStarfield (options stars 1000) w2 = inr (high, w3) /\
    500 <> 750 /\ 750 <> 1000 /\ 500 <> 1000 /\
    buffers w3 = buffers w ++
      [spec_cloud 500 (draws w) (loop_start w) n;
       spec_cloud 750 (draws w) (loop_start w + (3 * n + 12)) n;
       spec_cloud 1000 (draws w) (loop_start w + 2 * (3 * n + 12)) n] /\
    drawn w3 = (drawn w + 3 * (3 * n + 12))%nat /\
    position_array low = Some l /\
    position_array med = Some (S l) /\
    position_array high = Some (S (S l)) /\
    positions w3 low = Some (spec_cloud 500 (draws w) (loop_start w) n) /\
    positions w3 med = Some (spec_cloud 750 (draws w) (loop_start w + (3 * n + 12)) n) /\
    positions w3 high = Some (spec_cloud 1000 (draws w) (loop_start w + 2 * (3 * n + 12)) n) /\
    (forall b, b ∈ [low; med; high] ->
       exists c, positions w3 b = Some c /\ point_count c = 500%nat) /\
    (forall a b la k x,
       a ∈ [low; med; high] -> b ∈ [low; med; high] -> a <> b ->
       position_array a = Some la ->
       exists w4, Float32Array.store la k x w3 = inr (tt, w4) /\
                  positions w4 b = positions w3 b).
Proof.
  intros n l.
  assert (Hn : n = 500%nat) by (unfold n, stars; lia).
  assert (Hs : (0 <= stars)%Z) by (unfold stars; lia).
  pose proof (getStarfield_options stars 500 w Hs) as H1.
  fold n in H1. clearbody n.
  set (w1 := mkWorld _ _ _) in H1.
  pose proof (getStarfield_options stars 750 w1 Hs) as H2.
  replace (Z.to_nat stars) with n in H2 by (unfold stars; lia).
  set (w2 := mkWorld _ _ _) in H2.
  pose proof (getStarfield_options stars 1000 w2 Hs) as H3.
  replace (Z.to_nat stars) with n in H3 by (unfold stars; lia).
  set (w3 := mkWorld _ _ _) in H3.
  assert (Hb : buffers w3 = buffers w ++
      [spec_cloud 500 (draws w) (loop_start w) n;
       spec_cloud 750 (draws w) (loop_start w + (3 * n + 12)) n;
       spec_cloud 1000 (draws w) (loop_start w + 2 * (3 * n + 12)) n]).
  { subst w3 w2 w1. unfold loop_start. cbn [buffers draws drawn].
    rewrite <- !app_assoc. cbn [app].
    replace (drawn w + 3 * n + 12 + 4)%nat
      with (drawn w + 4 + (3 * n + 12))%nat by lia.
    replace (drawn w + 3 * n + 12 + 3 * n + 12 + 4)%nat
      with (drawn w + 4 + 2 * (3 * n + 12))%nat by lia.
    reflexivity. }
  assert (Hl1 : length (buffers w1) = S l).
  { subst w1. cbn [buffers]. rewrite length_app. simpl. lia. }
  assert (Hl2 : length (buffers w2) = S (S l)).
  { subst w2. cbn [buffers]. rewrite length_app, Hl1. simpl. lia. }
  rewrite Hl1 in H2. rewrite Hl2 in H3. fold l in H1.
  assert (P1 : positions w3 (starfield_at l) =
               Some (spec_cloud 500 (draws w) (loop_start w) n)).
  { rewrite positions_at, Hb. rewrite lookup_app_r by done.
    unfold l. by rewrite Nat.sub_diag. }
  assert (P2 : positions w3 (starfield_at (S l)) =
               Some (spec_cloud 750 (draws w) (loop_start w + (3 * n + 12)) n)).
  { rewrite positions_at, Hb. rewrite lookup_app_r by (unfold l; lia).
    unfold l. by replace (S (length (buffers w)) - length (buffers w))%nat
      with 1%nat by lia. }
  assert (P3 : positions w3 (starfield_at (S (S l))) =
               Some (spec_cloud 1000 (draws w) (loop_start w + 2 * (3 * n + 12)) n)).
  { rewrite positions_at, Hb. rewrite lookup_app_r by (unfold l; lia).
    unfold l. by replace (S (S (length (buffers w))) - length (buffers w))%nat
      with 2%nat by lia. }
  exists (starfield_at l), (starfield_at (S l)), (starfield_at (S (S l))),
         w1, w2, w3.
  split.
  { unfold main_starfield. fold (options stars 500).
    fold (options stars 750). fold (options stars 1000).
    unfold bind at 1. rewrite H1. unfold bind at 1. rewrite H2.
    unfold bind at 1. by rewrite H3. }
  split; [reflexivity|].
  split; [exact H1|]. split; [exact H2|]. split; [exact H3|].
  split; [lra|]. split; [lra|]. split; [lra|].
  split; [exact Hb|].
  split; [subst w3 w2 w1; cbn [drawn]; lia|].
  split; [apply position_array_at|].
  split; [apply position_array_at|].
  split; [apply position_array_at|].
  split; [exact P1|]. split; [exact P2|]. split; [exact P3|].
  split.
  { intros b Hin. unfold point_count.
    apply elem_of_cons in Hin as [->|Hin];
      [|apply elem_of_cons in Hin as [->|Hin];
        [|apply list_elem_of_singleton in Hin as ->]].
    all: eexists; split; [eassumption|].
    all: rewrite spec_cloud_length, Nat.mul_comm, Nat.div_mul by done.
    all: exact Hn. }
  intros a b la k x Ha Hin Hne Hla.
  assert (Haddr : forall q, q ∈ [starfield_at l; starfield_at (S l);
                                  starfield_at (S (S l))] ->
                  exists m, q = starfield_at m).
  { intros q Hq.
    apply elem_of_cons in Hq as [->|Hq]; [by eexists|].
    apply elem_of_cons in Hq as [->|Hq]; [by eexists|].
    apply list_elem_of_singleton in Hq as ->. by eexists. }
  destruct (Haddr a Ha) as [ma ->]. destruct (Haddr b Hin) as [mb ->].
  rewrite position_array_at in Hla. apply (inj Some) in Hla. subst la.
  apply store_other with (l := mb); [apply position_array_at|].
  intros ->. by apply Hne.
Qed.

(** C9. In exact real arithmetic the distance of a generated point from the
    origin is exactly the drawn distance d = radius * (0.8 + 0.2 * v):
    the squares of the three direction components sum to 1,
    sin phi >= 0 for phi = acos (2u - 1) in [0, pi], so the norm is |d|,
    which is d for a radius that is not negative. *)
Theorem C9_distance_is_drawn_distance (count : Z) (radius : R) (w : World) :
  unit_draws (draws w) -> (0 <= count)%Z ->
  exists p w' b,
    getStarfield (options count radius) w = inr (p, w') /\
    positions w' p = Some b /\
    forall i, (i < Z.to_nat count)%nat ->
      let theta := draws w (loop_start w + 3 * i)%nat * 2 * PI in
      let phi := acos (2 * draws w (loop_start w + 3 * i + 1)%nat - 1) in
      let d := radius * (0.8 + 0.2 * draws w (loop_start w + 3 * i + 2)%nat) in
      exists pt,
        point_at b i = Some pt /\
        (sin phi)² * (cos theta)² + (sin phi)² * (sin theta)² + (cos phi)² = 1 /\
        0 <= phi <= PI /\ 0 <= sin phi /\
        norm pt = Rabs d /\
        (0 <= radius -> norm pt = d).
Proof.
  intros Hu Hc.
  destruct (getStarfield_cloud count radius w Hc)
    as (p & w' & Hrun & Hpos & _).
  exists p, w', (spec_cloud radius (draws w) (loop_start w) (Z.to_nat count)).
  split; [exact Hrun|]. split; [exact Hpos|].
  intros i Hi theta phi d.
  exists (spec_point radius (draws w (loop_start w + 3 * i)%nat)
            (draws w (loop_start w + 3 * i + 1)%nat)
            (draws w (loop_start w + 3 * i + 2)%nat)).
  split; [by apply spec_cloud_point|].
  assert (Hphi : 0 <= phi <= PI) by apply acos_bound.
  split.
  { pose proof (sin2_cos2 theta) as Ht. pose proof (sin2_cos2 phi) as Hp.
    replace ((sin phi)² * (cos theta)² + (sin phi)² * (sin theta)² + (cos phi)²)
      with ((sin phi)² * ((sin theta)² + (cos theta)²) + (cos phi)²) by ring.
    by rewrite Ht, Rmult_1_r. }
  split; [exact Hphi|].
  split; [apply sin_ge_0; apply Hphi|].
  rewrite norm_spec_point. split; [reflexivity|].
  intros Hr. apply Rabs_pos_eq. subst d.
  destruct (Hu (loop_start w + 3 * i + 2)%nat) as [H0 H1]. nra.
Qed.

(** The second of two points at radius 10 with every draw 0.5 lies at
    distance 10 * (0.8 + 0.2 * 0.5). *)
Lemma C9_distance_is_drawn_distance_witness :
  unit_draws (draws world_half) /\ (0 <= 2)%Z /\ 0 <= 10 /\
  exists p w' b pt,
    getStarfield (options 2 10) world_half = inr (p, w') /\
    positions w' p = Some b /\ point_at b 1 = Some pt /\
    norm pt = 10 * (0.8 + 0.2 * 0.5).
Proof.
  assert (Hu : unit_draws (draws world_half)) by (intros k; simpl; lra).
  split; [exact Hu|]. split; [lia|]. split; [lra|].
  destruct (C9_distance_is_drawn_distance 2 10 world_half
              Hu ltac:(lia))
    as (p & w' & b & Hrun & Hpos & Hall).
  destruct (Hall 1%nat ltac:(simpl; lia)) as (pt & Hpt & _ & _ & _ & _ & Hd).
  exists p, w', b, pt.
  split; [exact Hrun|]. split; [exact Hpos|]. split; [exact Hpt|].
  apply Hd. lra.
Defined.



(** * Further properties of [getStarfield] *)

Lemma spec_cloud_app r d n1 n2 : forall c,
  spec_cloud r d c (n1 + n2) =
  spec_cloud r d c n1 ++ spec_cloud r d (c + 3 * n1) n2.
Proof.
  induction n1 as [|n1 IH]; intros c.
  - simpl. by rewrite Nat.add_0_r.
  - replace (c + 3 * S n1)%nat with (S (S (S c)) + 3 * n1)%nat by lia.
    cbn [Nat.add spec_cloud]. unfold spec_point. by rewrite IH.
Qed.

Lemma spec_cloud_scale k r d n : forall c,
  spec_cloud (k * r) d c n = (fun x => k * x) <$> spec_cloud r d c n.
Proof.
  induction n as [|n IH]; intros c; [done|].
  cbn [spec_cloud]. unfold spec_point. cbn [fmap list_fmap].
  rewrite <- IH. f_equal; [ring|]. f_equal; [ring|]. f_equal. ring.
Qed.

Lemma positions_new d c bs (b : list R) :
  positions (mkWorld d c (bs ++ [b])) (starfield_at (length bs)) = Some b.
Proof. rewrite positions_at. cbn [buffers]. apply list_lookup_middle. done. Qed.






(** A call with a count that is not negative reads the random source and
    the heap but changes nothing that was there: the stream is the same,
    exactly [3 * numStars + 12] draws are consumed (three for each star,
    four for each of the uuids of the geometry, the material and the
    points object), exactly one typed array is added, at an address no
    array had before, and every point cloud made earlier reads as it
    did. *)
Theorem getStarfield_frame (arg : option StarfieldOptions) (w : World) :
  (0 <= numStars_of arg)%Z ->
  exists p w',
    getStarfield arg w = inr (p, w') /\
    draws w' = draws w /\
    drawn w' = (drawn w + 3 * Z.to_nat (numStars_of arg) + 12)%nat /\
    length (buffers w') = S (length (buffers w)) /\
    position_array p = Some (length (buffers w)) /\
    buffers w !! length (buffers w) = None /\
    (forall l, (l < length (buffers w))%nat ->
       buffers w' !! l = buffers w !! l) /\
    (forall q b, positions w q = Some b -> positions w' q = Some b).
Proof.
  intros Hn. exists (starfield_at (length (buffers w))), (world_after arg w).
  split; [by apply getStarfield_run|].
  split; [reflexivity|]. split; [reflexivity|].
  cbn [world_after buffers]. split; [rewrite length_app; simpl; lia|].
  split; [apply position_array_at|].
  split; [by apply lookup_ge_None_2|].
  split.
  - intros l Hl. by apply lookup_app_l.
  - intros q b. unfold positions, world_after. cbn [buffers].
    destruct (THREE.attributes (THREE.geometry q) !! "position"%string)
      as [attr|]; [|done].
    intros Hb. rewrite lookup_app_l; [done|]. by eapply lookup_lt_Some.
Qed.

(** Ten default stars on a heap that already holds a cloud. *)
Lemma getStarfield_frame_witness :
  (0 <= numStars_of None)%Z /\
  exists p w',
    getStarfield None world_cycle_later = inr (p, w') /\
    drawn w' = 45%nat /\ buffers w' !! 0%nat = Some [1; 2] /\
    position_array p = Some 1%nat.
Proof.
  assert (H : (0 <= numStars_of None)%Z) by (unfold numStars_of; simpl; lia).
  split; [exact H|].
  destruct (getStarfield_frame None world_cycle_later H)
    as (p & w' & Hrun & _ & Hd & _ & Hp & _ & Hold & _).
  exists p, w'. split; [exact Hrun|]. split; [exact Hd|].
  split; [|exact Hp]. rewrite Hold; [reflexivity | simpl; lia].
Defined.

(** Asking for more stars keeps the ones there were: in the same world,
    the buffer of a call with [n1] stars is the beginning of the buffer of
    a call with [n1 + n2] stars at the same radius, which goes on with
    [n2] more points made from the draws that follow. *)
Theorem getStarfield_prefix (n1 n2 : Z) (r : R) (w : World) :
  (0 <= n1)%Z -> (0 <= n2)%Z ->
  exists p w' b p1 w1 b1 rest,
    getStarfield (options (n1 + n2) r) w = inr (p, w') /\
    positions w' p = Some b /\
    getStarfield (options n1 r) w = inr (p1, w1) /\
    positions w1 p1 = Some b1 /\
    b = b1 ++ rest /\
    length rest = (3 * Z.to_nat n2)%nat /\
    rest = spec_cloud r (draws w) (loop_start w + 3 * Z.to_nat n1)
             (Z.to_nat n2) /\
    (forall i, (i < Z.to_nat n1)%nat -> point_at b i = point_at b1 i).
Proof.
  intros H1 H2.
  pose proof (getStarfield_options (n1 + n2) r w ltac:(lia)) as Hrun.
  pose proof (getStarfield_options n1 r w H1) as Hrun1.
  rewrite Z2Nat.inj_add, spec_cloud_app in Hrun by lia.
  do 6 eexists.
  exists (spec_cloud r (draws w) (loop_start w + 3 * Z.to_nat n1)
            (Z.to_nat n2)).
  split; [exact Hrun|]. split; [apply positions_new|].
  split; [exact Hrun1|]. split; [apply positions_new|].
  split; [reflexivity|]. split; [apply spec_cloud_length|].
  split; [reflexivity|].
  intros i Hi. rewrite <- spec_cloud_app.
  by rewrite !spec_cloud_point by lia.
Qed.

(** One star, and three with the two that follow. *)
Lemma getStarfield_prefix_witness :
  (0 <= 1)%Z /\ (0 <= 2)%Z /\
  exists p w' b p1 w1 b1 rest,
    getStarfield (options (1 + 2) 10) world_cycle = inr (p, w') /\
    positions w' p = Some b /\
    getStarfield (options 1 10) world_cycle = inr (p1, w1) /\
    positions w1 p1 = Some b1 /\
    b = b1 ++ rest /\ length rest = 6%nat.
Proof.
  split; [lia|]. split; [lia|].
  destruct (getStarfield_prefix 1 2 10 world_cycle ltac:(lia) ltac:(lia))
    as (p & w' & b & p1 & w1 & b1 & rest & Hrun & Hpos & Hrun1 & Hpos1 &
        Hb & Hlen & _).
  exists p, w', b, p1, w1, b1, rest.
  split; [exact Hrun|]. split; [exact Hpos|]. split; [exact Hrun1|].
  split; [exact Hpos1|]. split; [exact Hb | exact Hlen].
Defined.

(** With the same draws, multiplying the radius by [k] multiplies every
    coordinate of every star by [k]: the layers of a starfield are scaled
    copies of one another up to their draws. *)
Theorem getStarfield_scale (count : Z) (k r : R) (w : World) :
  (0 <= count)%Z ->
  exists p w' b pk wk bk,
    getStarfield (options count r) w = inr (p, w') /\
    positions w' p = Some b /\
    getStarfield (options count (k * r)) w = inr (pk, wk) /\
    positions wk pk = Some bk /\
    bk = (fun x => k * x) <$> b.
Proof.
  intros Hc.
  destruct (getStarfield_cloud count r w Hc) as (p & w' & Hrun & Hpos & _).
  destruct (getStarfield_cloud count (k * r) w Hc)
    as (pk & wk & Hrunk & Hposk & _).
  exists p, w', (spec_cloud r (draws w) (loop_start w) (Z.to_nat count)),
         pk, wk, (spec_cloud (k * r) (draws w) (loop_start w) (Z.to_nat count)).
  split; [exact Hrun|]. split; [exact Hpos|].
  split; [exact Hrunk|]. split; [exact Hposk|].
  apply spec_cloud_scale.
Qed.

(** Radius 500 against radius 1.5 * 500. *)
Lemma getStarfield_scale_witness :
  (0 <= 2)%Z /\
  exists p w' b pk wk bk,
    getStarfield (options 2 500) world_cycle = inr (p, w') /\
    positions w' p = Some b /\
    getStarfield (options 2 (1.5 * 500)) world_cycle = inr (pk, wk) /\
    positions wk pk = Some bk /\
    bk = (fun x => 1.5 * x) <$> b.
Proof.
  split; [lia|]. apply (getStarfield_scale 2 1.5 500 world_cycle). lia.
Defined.



Lemma spec_point_height r ut up uj :
  0 <= up < 1 ->
  let d := r * (0.8 + 0.2 * uj) in
  let '(x, y, z) := spec_point r ut up uj in
  z = d * (2 * up - 1) /\ x * x + y * y = 4 * (d * d) * (up * (1 - up)).
Proof.
  intros Hp d. unfold spec_point. fold d.
  set (phi := acos (2 * up - 1)). set (theta := ut * (2 * PI)).
  assert (Hc : cos phi = 2 * up - 1) by (apply cos_acos; lra).
  pose proof (sin_cos_unit phi) as Hphi.
  pose proof (sin_cos_unit theta) as Hth.
  split; [by rewrite Hc|].
  replace (d * sin phi * cos theta * (d * sin phi * cos theta) +
           d * sin phi * sin theta * (d * sin phi * sin theta))
    with (d * d * (sin phi * sin phi) *
          (sin theta * sin theta + cos theta * cos theta)) by ring.
  rewrite Hth, Rmult_1_r.
  replace (sin phi * sin phi) with (1 - cos phi * cos phi) by lra.
  rewrite Hc. ring.
Qed.

Lemma spec_point_south r ut uj :
  spec_point r ut 0 uj = (0, 0, - (r * (0.8 + 0.2 * uj))).
Proof.
  unfold spec_point.
  replace (2 * 0 - 1) with (- (1)) by lra.
  rewrite acos_opp, acos_1, Rminus_0_r, sin_PI, cos_PI.
  f_equal; [f_equal|]; ring.
Qed.

(** The height of a star is linear in its polar draw [u]:
    z = d * (2u - 1) for the drawn distance d, and its distance from the
    vertical axis satisfies x^2 + y^2 = 4 d^2 u (1 - u).  The azimuth draw
    has no part in either. *)
Theorem getStarfield_height (count : Z) (radius : R) (w : World) (i : nat) :
  unit_draws (draws w) -> (0 <= count)%Z -> (i < Z.to_nat count)%nat ->
  exists p w' b x y z,
    getStarfield (options count radius) w = inr (p, w') /\
    positions w' p = Some b /\
    point_at b i = Some (x, y, z) /\
    let u := draws w (loop_start w + 3 * i + 1)%nat in
    let d := radius * (0.8 + 0.2 * draws w (loop_start w + 3 * i + 2)%nat) in
    z = d * (2 * u - 1) /\
    x * x + y * y = 4 * (d * d) * (u * (1 - u)).
Proof.
  intros Hu Hc Hi.
  destruct (getStarfield_cloud count radius w Hc)
    as (p & w' & Hrun & Hpos & _).
  pose proof (spec_cloud_point radius (draws w) _ (loop_start w) i Hi) as Hpt.
  pose proof (spec_point_height radius (draws w (loop_start w + 3 * i)%nat)
                (draws w (loop_start w + 3 * i + 1)%nat)
                (draws w (loop_start w + 3 * i + 2)%nat) (Hu _)) as Hh.
  destruct (spec_point radius _ _ _) as [[x y] z].
  exists p, w', (spec_cloud radius (draws w) (loop_start w) (Z.to_nat count)),
         x, y, z.
  split; [exact Hrun|]. split; [exact Hpos|]. split; [exact Hpt|].
  exact Hh.
Qed.

(** With every draw 0.5 a star lies on the equator: its height is
    d * (2 * 0.5 - 1). *)
Lemma getStarfield_height_witness :
  unit_draws (draws world_half) /\ (0 <= 2)%Z /\ (1 < Z.to_nat 2)%nat /\
  exists p w' b x y z,
    getStarfield (options 2 10) world_half = inr (p, w') /\
    positions w' p = Some b /\
    point_at b 1 = Some (x, y, z) /\
    z = 10 * (0.8 + 0.2 * 0.5) * (2 * 0.5 - 1).
Proof.
  assert (Hu : unit_draws (draws world_half)) by (intros k; simpl; lra).
  split; [exact Hu|]. split; [lia|]. split; [simpl; lia|].
  destruct (getStarfield_height 2 10 world_half 1 Hu
              ltac:(lia) ltac:(simpl; lia))
    as (p & w' & b & x & y & z & Hrun & Hpos & Hpt & Hz & _).
  exists p, w', b, x, y, z.
  split; [exact Hrun|]. split; [exact Hpos|]. split; [exact Hpt|]. exact Hz.
Defined.

(** * The starfield layers in the scene *)

Lemma spec_cloud_shell r d c n i pt :
  0 < r -> unit_draws d ->
  point_at (spec_cloud r d c n) i = Some pt ->
  0.8 * r <= norm pt <= r.
Proof.
  intros Hr Hu Hpt.
  apply spec_cloud_point_inv in Hpt as [_ ->]. rewrite norm_spec_point.
  pose proof (jitter_band r _ (Rlt_le _ _ Hr) (Hu (c + 3 * i + 2)%nat))
    as [Hlo Hhi].
  rewrite Rabs_pos_eq; lra.
Qed.

(** The three calls of [main.js], run one after the other. *)
Lemma main_starfield_run (w : World) :
  let n := Z.to_nat stars in
  let l := length (buffers w) in
  main_starfield w =
    inr ([starfield_at l; starfield_at (S l); starfield_at (S (S l))],
         mkWorld (draws w) (drawn w + 3 * (3 * n + 12))
           (buffers w ++
              [spec_cloud 500 (draws w) (loop_start w) n;
               spec_cloud 750 (draws w) (loop_start w + (3 * n + 12)) n;
               spec_cloud 1000 (draws w) (loop_start w + 2 * (3 * n + 12)) n])).
Proof.
  intros n l.
  assert (Hs : (0 <= stars)%Z) by (unfold stars; lia).
  unfold main_starfield. fold (options stars 500).
  fold (options stars 750). fold (options stars 1000).
  assert (Hn : Z.to_nat stars = n) by reflexivity. clearbody n.
  rewrite (bind_run _ _ _ _ _ (getStarfield_options stars 500 w Hs)), Hn.
  rewrite (bind_run _ _ _ _ _ (getStarfield_options stars 750 _ Hs)), Hn.
  rewrite (bind_run _ _ _ _ _ (getStarfield_options stars 1000 _ Hs)), Hn.
  unfold loop_start. cbn [draws drawn buffers]. unfold ret.
  rewrite !length_app. cbn [length]. fold l.
  replace (l + 1)%nat with (S l) by lia.
  replace (S l + 1)%nat with (S (S l)) by lia.
  rewrite <- !app_assoc. cbn [app].
  replace (drawn w + 3 * n + 12 + 4)%nat
    with (drawn w + 4 + (3 * n + 12))%nat by lia.
  replace (drawn w + 3 * n + 12 + 3 * n + 12 + 4)%nat
    with (drawn w + 4 + 2 * (3 * n + 12))%nat by lia.
  replace (drawn w + 3 * n + 12 + 3 * n + 12 + 3 * n + 12)%nat
    with (drawn w + 3 * (3 * n + 12))%nat by lia.
  reflexivity.
Qed.

Lemma layers_positions d c (bs : list (list R)) (c1 c2 c3 : list R) :
  let w := mkWorld d c (bs ++ [c1; c2; c3]) in
  positions w (starfield_at (length bs)) = Some c1 /\
  positions w (starfield_at (S (length bs))) = Some c2 /\
  positions w (starfield_at (S (S (length bs)))) = Some c3.
Proof.
  intros w. subst w. rewrite !positions_at. cbn [buffers].
  split; [|split].
  - by apply list_lookup_middle.
  - replace (bs ++ [c1; c2; c3]) with ((bs ++ [c1]) ++ [c2; c3])
      by by rewrite <- app_assoc.
    apply list_lookup_middle. rewrite length_app. simpl. lia.
  - replace (bs ++ [c1; c2; c3]) with ((bs ++ [c1; c2]) ++ [c3])
      by by rewrite <- app_assoc.
    apply list_lookup_middle. rewrite length_app. simpl. lia.
Qed.

(** The layers are layers: the stars of the first lie between 400 and 500
    from the origin, those of the second between 600 and 750, those of the
    third between 800 and 1000, so every star of a layer is nearer the
    origin than every star of the next. *)
Theorem main_layers_ordered (w : World) :
  unit_draws (draws w) ->
  exists low med high w' bl bm bh,
    main_starfield w = inr ([low; med; high], w') /\
    positions w' low = Some bl /\
    positions w' med = Some bm /\
    positions w' high = Some bh /\
    (forall i pt, point_at bl i = Some pt -> 400 <= norm pt <= 500) /\
    (forall i pt, point_at bm i = Some pt -> 600 <= norm pt <= 750) /\
    (forall i pt, point_at bh i = Some pt -> 800 <= norm pt <= 1000) /\
    (forall i j p q, point_at bl i = Some p -> point_at bm j = Some q ->
       norm p < norm q) /\
    (forall i j p q, point_at bm i = Some p -> point_at bh j = Some q ->
       norm p < norm q).
Proof.
  intros Hu.
  pose proof (main_starfield_run w) as Hrun. cbv zeta in Hrun.
  set (n := Z.to_nat stars) in *. clearbody n.
  set (c1 := spec_cloud 500 _ _ n) in *.
  set (c2 := spec_cloud 750 _ _ n) in *.
  set (c3 := spec_cloud 1000 _ _ n) in *.
  destruct (layers_positions (draws w) (drawn w + 3 * (3 * n + 12)) (buffers w) c1 c2 c3)
    as (P1 & P2 & P3).
  assert (S1 : forall i pt, point_at c1 i = Some pt -> 400 <= norm pt <= 500).
  { intros i pt H. apply spec_cloud_shell in H; [lra | lra | exact Hu]. }
  assert (S2 : forall i pt, point_at c2 i = Some pt -> 600 <= norm pt <= 750).
  { intros i pt H. apply spec_cloud_shell in H; [lra | lra | exact Hu]. }
  assert (S3 : forall i pt, point_at c3 i = Some pt -> 800 <= norm pt <= 1000).
  { intros i pt H. apply spec_cloud_shell in H; [lra | lra | exact Hu]. }
  do 4 eexists. exists c1, c2, c3.
  split; [exact Hrun|]. split; [exact P1|]. split; [exact P2|].
  split; [exact P3|]. split; [exact S1|]. split; [exact S2|].
  split; [exact S3|]. split.
  - intros i j p q Hp Hq. pose proof (S1 i p Hp). pose proof (S2 j q Hq). lra.
  - intros i j p q Hp Hq. pose proof (S2 i p Hp). pose proof (S3 j q Hq). lra.
Qed.

(** The layers of the scene with every draw 0.5. *)
Lemma main_layers_ordered_witness :
  unit_draws (draws world_half) /\
  exists low med high w' bl bm bh,
    main_starfield world_half = inr ([low; med; high], w') /\
    positions w' low = Some bl /\
    positions w' med = Some bm /\
    positions w' high = Some bh /\
    (forall i j p q, point_at bl i = Some p -> point_at bm j = Some q ->
       norm p < norm q).
Proof.
  assert (Hu : unit_draws (draws world_half)) by (intros k; simpl; lra).
  split; [exact Hu|].
  destruct (main_layers_ordered world_half Hu)
    as (low & med & high & w' & bl & bm & bh & Hrun & P1 & P2 & P3 &
        _ & _ & _ & Hlt & _).
  exists low, med, high, w', bl, bm, bh.
  split; [exact Hrun|]. split; [exact P1|]. split; [exact P2|].
  split; [exact P3|]. exact Hlt.
Defined.

Lemma norm_square (p : R * R * R) :
  let '(x, y, z) := p in
  0 <= norm p /\ norm p * norm p = x * x + y * y + z * z.
Proof.
  destruct p as [[x y] z]. unfold norm.
  split; [apply sqrt_pos|]. apply sqrt_sqrt. nra.
Qed.

(** A point is no nearer the camera than its distance from the origin less
    64, and no farther than that distance plus 64. *)
Lemma distance_camera_bounds (pt : R * R * R) :
  norm pt - 64 <= distance camera_position pt <= norm pt + 64.
Proof.
  destruct pt as [[x y] z]. unfold distance, camera_position.
  pose proof (norm_square (x, y, z)) as [HN HN2].
  pose proof (norm_square (0 - x, 0 - y, 64 - z)) as [HD HD2].
  set (N := norm (x, y, z)) in *.
  set (D := norm (0 - x, 0 - y, 64 - z)) in *.
  assert (Hz : - N <= z <= N) by (split; nra).
  split; nra.
Qed.

(** Where the stars are in the scene.  Every star of every layer lies
    outside the Earth and both cloud shells, and farther from the origin
    than the camera starts.  Every star of the two inner layers is within
    the camera's clipping range, more than [near] and less than [far]
    from where the camera starts. *)
Theorem main_stars_in_scene (w : World) :
  unit_draws (draws w) ->
  exists low med high w' bl bm bh,
    main_starfield w = inr ([low; med; high], w') /\
    positions w' low = Some bl /\
    positions w' med = Some bm /\
    positions w' high = Some bh /\
    (forall b i pt, b ∈ [bl; bm; bh] -> point_at b i = Some pt ->
       earth_radius * outerCloud_scale < norm pt /\
       earth_radius * innerCloud_scale < norm pt /\
       norm camera_position < norm pt /\
       near < distance camera_position pt) /\
    (forall b i pt, b ∈ [bl; bm] -> point_at b i = Some pt ->
       distance camera_position pt < far).
Proof.
  intros Hu.
  pose proof (main_starfield_run w) as Hrun. cbv zeta in Hrun.
  set (n := Z.to_nat stars) in *. clearbody n.
  set (c1 := spec_cloud 500 _ _ n) in *.
  set (c2 := spec_cloud 750 _ _ n) in *.
  set (c3 := spec_cloud 1000 _ _ n) in *.
  destruct (layers_positions (draws w) (drawn w + 3 * (3 * n + 12)) (buffers w) c1 c2 c3)
    as (P1 & P2 & P3).
  assert (S1 : forall i pt, point_at c1 i = Some pt -> 400 <= norm pt <= 500).
  { intros i pt H. apply spec_cloud_shell in H; [lra | lra | exact Hu]. }
  assert (S2 : forall i pt, point_at c2 i = Some pt -> 600 <= norm pt <= 750).
  { intros i pt H. apply spec_cloud_shell in H; [lra | lra | exact Hu]. }
  assert (S3 : forall i pt, point_at c3 i = Some pt -> 800 <= norm pt <= 1000).
  { intros i pt H. apply spec_cloud_shell in H; [lra | lra | exact Hu]. }
  assert (Hcam : norm camera_position = 64).
  { unfold norm, camera_position. apply sqrt_lem_1; lra. }
  do 4 eexists. exists c1, c2, c3.
  split; [exact Hrun|]. split; [exact P1|]. split; [exact P2|].
  split; [exact P3|]. split.
  - intros b i pt Hb Hpt.
    assert (Hn : 400 <= norm pt).
    { apply elem_of_cons in Hb as [->|Hb]; [apply (S1 i pt Hpt)|].
      apply elem_of_cons in Hb as [->|Hb]; [pose proof (S2 i pt Hpt); lra|].
      apply list_elem_of_singleton in Hb as ->.
      pose proof (S3 i pt Hpt); lra. }
    pose proof (distance_camera_bounds pt) as [Hlo _].
    unfold earth_radius, outerCloud_scale, innerCloud_scale, near.
    rewrite Hcam. repeat split; lra.
  - intros b i pt Hb Hpt.
    assert (Hn : norm pt <= 750).
    { apply elem_of_cons in Hb as [->|Hb]; [pose proof (S1 i pt Hpt); lra|].
      apply list_elem_of_singleton in Hb as ->. apply (S2 i pt Hpt). }
    pose proof (distance_camera_bounds pt) as [_ Hhi].
    unfold far. lra.
Qed.

(** The scene with every draw 0.5: the first star of the second layer is
    within the clipping range. *)
Lemma main_stars_in_scene_witness :
  unit_draws (draws world_half) /\
  exists med w' bm,
    (exists low high, main_starfield world_half = inr ([low; med; high], w')) /\
    positions w' med = Some bm /\
    forall i pt, point_at bm i = Some pt ->
      near < distance camera_position pt < far.
Proof.
  assert (Hu : unit_draws (draws world_half)) by (intros k; simpl; lra).
  split; [exact Hu|].
  destruct (main_stars_in_scene world_half Hu)
    as (low & med & high & w' & bl & bm & bh & Hrun & _ & P2 & _ & Hall & Hin).
  exists med, w', bm. split; [by exists low, high|]. split; [exact P2|].
  intros i pt Hpt. split.
  - apply (Hall bm i pt); [|exact Hpt].
    apply elem_of_cons. right. apply elem_of_cons. by left.
  - apply (Hin bm i pt); [|exact Hpt].
    apply elem_of_cons. right. apply elem_of_cons. by left.
Defined.

(** The outer layer is not covered by the clipping range: there are draws
    for which one of its stars is farther than [far] from where the camera
    starts. *)
Theorem main_outer_layer_beyond_far :
  exists w low med high w' bh pt,
    unit_draws (draws w) /\
    main_starfield w = inr ([low; med; high], w') /\
    positions w' high = Some bh /\
    point_at bh 0 = Some pt /\
    far < distance camera_position pt.
Proof.
  pose proof (main_starfield_run world_south) as Hrun. cbv zeta in Hrun.
  assert (Hpos : (0 < Z.to_nat stars)%nat) by (unfold stars; lia).
  set (n := Z.to_nat stars) in *. clearbody n.
  set (c1 := spec_cloud 500 _ _ n) in *.
  set (c2 := spec_cloud 750 _ _ n) in *.
  destruct (layers_positions (draws world_south)
              (drawn world_south + 3 * (3 * n + 12)) (buffers world_south)
              c1 c2
              (spec_cloud 1000 (draws world_south)
                 (loop_start world_south + 2 * (3 * n + 12)) n))
    as (_ & _ & P3).
  exists world_south. do 4 eexists.
  exists (spec_cloud 1000 (draws world_south)
            (loop_start world_south + 2 * (3 * n + 12)) n),
         (0, 0, - (1000 * (0.8 + 0.2 * 0.9))).
  split.
  { intros k. unfold world_south. cbn [draws].
    destruct (Nat.eqb (k mod 3) 2); lra. }
  split; [exact Hrun|]. split; [exact P3|]. split.
  - rewrite spec_cloud_point by exact Hpos.
    unfold world_south, loop_start. cbn [draws drawn].
    replace (0 + 4 + 2 * (3 * n + 12) + 3 * 0 + 1)%nat
      with (2 + (2 * n + 9) * 3)%nat by lia.
    replace (0 + 4 + 2 * (3 * n + 12) + 3 * 0 + 2)%nat
      with (0 + (2 * n + 10) * 3)%nat by lia.
    replace (0 + 4 + 2 * (3 * n + 12) + 3 * 0)%nat
      with (1 + (2 * n + 9) * 3)%nat by lia.
    rewrite !Nat.Div0.mod_add.
    change ((1 mod 3)%nat =? 2)%nat with false.
    change ((0 mod 3)%nat =? 2)%nat with false.
    change ((2 mod 3)%nat =? 2)%nat with true.
    cbv iota. by rewrite spec_point_south.
  - unfold distance, camera_position, far, norm.
    apply Rlt_le_trans with (sqrt (1044 * 1044)).
    + rewrite sqrt_square; lra.
    + apply sqrt_le_1_alt. nra.
Qed.

(** * Frames and resizes *)

Lemma run_cons e evs s : run (e :: evs) s = run evs (step s e).
Proof. reflexivity. Qed.

Lemma frames_cons e evs :
  frames (e :: evs) = ((if is_frame e then 1 else 0) + frames evs)%nat.
Proof. unfold frames. simpl. by destruct (is_frame e). Qed.

(** What a run of events does to the parts of the scene a frame touches. *)
Lemma run_rotations evs : forall s,
  rendered (run evs s) = (rendered s + frames evs)%nat /\
  earthGroup_rotation_y (run evs s) =
    earthGroup_rotation_y s + 0.00100 * INR (frames evs) /\
  cloudGroup_rotation_y (run evs s) =
    cloudGroup_rotation_y s + 0.00150 * INR (frames evs) /\
  starsGroup_rotation_y (run evs s) =
    starsGroup_rotation_y s - 0.00010 * INR (frames evs) /\
  earthGroup_rotation_z (run evs s) = earthGroup_rotation_z s /\
  lightsMesh_opacity (run evs s) = lightsMesh_opacity s.
Proof.
  induction evs as [|e evs IH]; intros s.
  - unfold run, frames. simpl. repeat split; try lra. lia.
  - rewrite run_cons, frames_cons.
    destruct (IH (step s e)) as (H1 & H2 & H3 & H4 & H5 & H6).
    rewrite H1, H2, H3, H4, H5, H6.
    destruct e as [|w h]; cbn [step is_frame animate onResize
      rendered earthGroup_rotation_y cloudGroup_rotation_y
      starsGroup_rotation_y earthGroup_rotation_z lightsMesh_opacity
      Nat.add].
    + rewrite (S_INR (frames evs)).
      repeat split; try lra. lia.
    + repeat split; lra.
Qed.

(** What a run of events does to the parts a resize touches. *)
Lemma run_viewport evs : forall s,
  camera_aspect s = IZR (renderer_size s).1 / IZR (renderer_size s).2 ->
  (canvas_style s = None \/
   canvas_style s = Some (pretty (renderer_size s).1 +:+ "px",
                          pretty (renderer_size s).2 +:+ "px")) ->
  camera_aspect (run evs s) =
    IZR (renderer_size (run evs s)).1 / IZR (renderer_size (run evs s)).2 /\
  (canvas_style (run evs s) = None \/
   canvas_style (run evs s) =
     Some (pretty (renderer_size (run evs s)).1 +:+ "px",
           pretty (renderer_size (run evs s)).2 +:+ "px")).
Proof.
  induction evs as [|e evs IH]; intros s Ha Hs; [by split|].
  rewrite run_cons. apply IH; destruct e as [|w h]; try done.
  - by right.
Qed.

Lemma run_only_frames evs : forall s,
  Forall (fun e => e = Frame) evs ->
  renderer_size (run evs s) = renderer_size s /\
  canvas_style (run evs s) = canvas_style s /\
  camera_aspect (run evs s) = camera_aspect s.
Proof.
  induction evs as [|e evs IH]; intros s Hall; [done|].
  apply Forall_cons in Hall as [-> Hall].
  rewrite run_cons. by destruct (IH (step s Frame) Hall) as (-> & -> & ->).
Qed.

Lemma append_cancel (t : string) : forall s1 s2 : string,
  s1 +:+ t = s2 +:+ t -> s1 = s2.
Proof.
  assert (Hlen : forall a b : string,
            String.length (a +:+ b) =
            (String.length a + String.length b)%nat).
  { induction a as [|c a IH]; intros b; simpl; [done|]. by rewrite IH. }
  induction s1 as [|c1 s1 IH]; intros [|c2 s2] H.
  - done.
  - apply (f_equal String.length) in H. rewrite !Hlen in H. simpl in H. lia.
  - apply (f_equal String.length) in H. rewrite !Hlen in H. simpl in H. lia.
  - injection H as -> H. f_equal. by apply IH.
Qed.

(** The rotations after any events.  With N the number of frames so far,
    the one the script starts with included, the Earth has turned by
    0.001 N, the clouds by 0.0015 N and the stars by -0.0001 N about y,
    whatever resizes came in between: the clouds turn one and a half times
    as fast as the Earth, the stars the other way at a tenth of its rate.
    The tilt of the Earth stays -23.4 degrees, and the city lights keep
    the opacity 0.5 they were made with: no event runs
    [updateNightLights]. *)
Theorem scene_rotation_law (innerWidth innerHeight : Z) (evs : list Event) :
  let s := run evs (startup innerWidth innerHeight) in
  let N := INR (S (frames evs)) in
  rendered s = S (frames evs) /\
  earthGroup_rotation_y s = 0.00100 * N /\
  cloudGroup_rotation_y s = 0.00150 * N /\
  starsGroup_rotation_y s = - (0.00010 * N) /\
  cloudGroup_rotation_y s = 1.5 * earthGroup_rotation_y s /\
  starsGroup_rotation_y s = - (0.1 * earthGroup_rotation_y s) /\
  earthGroup_rotation_z s = -23.4 * PI / 180 /\
  lightsMesh_opacity s = 0.5.
Proof.
  intros s N. subst s N.
  destruct (run_rotations evs (startup innerWidth innerHeight))
    as (H1 & H2 & H3 & H4 & H5 & H6).
  rewrite H1, H2, H3, H4, H5, H6, (S_INR (frames evs)).
  unfold startup, initial_scene, animate. cbn.
  repeat split; try lra. 
Qed.

(** The camera and the renderer agree after any events: the aspect of the
    camera is the width over the height of the size the renderer was last
    given, so aspect * height = width when the height is not 0, and the
    style of the canvas, once the program has set it, spells that size in
    pixels. *)
Theorem scene_viewport_invariant
    (innerWidth innerHeight : Z) (evs : list Event) :
  let s := run evs (startup innerWidth innerHeight) in
  let width := (renderer_size s).1 in
  let height := (renderer_size s).2 in
  camera_aspect s = IZR width / IZR height /\
  (height <> 0%Z -> camera_aspect s * IZR height = IZR width) /\
  ((0 < width)%Z -> (0 < height)%Z -> 0 < camera_aspect s) /\
  (canvas_style s = None \/
   canvas_style s = Some (pretty width +:+ "px", pretty height +:+ "px")).
Proof.
  intros s width height.
  destruct (run_viewport evs (startup innerWidth innerHeight)) as [Ha Hs].
  { reflexivity. }
  { by left. }
  fold s in Ha, Hs. fold width height in Ha, Hs.
  split; [exact Ha|]. split; [|split; [|exact Hs]].
  - intros Hh. rewrite Ha. field. by apply not_0_IZR.
  - intros Hw Hh. rewrite Ha.
    apply Rdiv_lt_0_compat; by apply (IZR_lt 0).
Qed.

(** The last resize wins: after a resize to [width] x [height], followed by
    frames only, the renderer has that size, the camera that aspect and
    the canvas that style, whatever happened before. *)
Theorem scene_last_resize
    (before after : list Event) (width height : Z) (s : Scene) :
  Forall (fun e => e = Frame) after ->
  let s' := run (before ++ Resize width height :: after) s in
  renderer_size s' = (width, height) /\
  camera_aspect s' = IZR width / IZR height /\
  canvas_style s' = Some (pretty width +:+ "px", pretty height +:+ "px").
Proof.
  intros Hall s'. subst s'. unfold run. rewrite foldl_app. cbn [foldl].
  destruct (run_only_frames after
              (step (foldl step s before) (Resize width height)) Hall)
    as (H1 & H2 & H3).
  unfold run in H1, H2, H3. by rewrite H1, H2, H3.
Qed.

(** Two resizes and frames around them. *)
Lemma scene_last_resize_witness :
  Forall (fun e => e = Frame) [Frame; Frame] /\
  let s' := run ([Frame; Resize 640 480; Frame] ++
                 Resize 800 600 :: [Frame; Frame]) (startup 1024 768) in
  renderer_size s' = (800, 600)%Z /\
  camera_aspect s' = IZR 800 / IZR 600 /\
  canvas_style s' = Some ("800px", "600px").
Proof.
  assert (H : Forall (fun e => e = Frame) [Frame; Frame])
    by (repeat constructor).
  split; [exact H|].
  exact (scene_last_resize [Frame; Resize 640 480; Frame] [Frame; Frame]
           800 600 (startup 1024 768) H).
Defined.

(** The style the listener gives the canvas determines the size it gives
    the renderer and the aspect it gives the camera: two resizes that
    leave the same style leave the same size and aspect. *)
Theorem resize_style_determines_size
    (w1 h1 w2 h2 : Z) (s1 s2 : Scene) :
  canvas_style (onResize w1 h1 s1) = canvas_style (onResize w2 h2 s2) ->
  renderer_size (onResize w1 h1 s1) = renderer_size (onResize w2 h2 s2) /\
  camera_aspect (onResize w1 h1 s1) = camera_aspect (onResize w2 h2 s2).
Proof.
  cbn [onResize canvas_style renderer_size camera_aspect]. intros H.
  injection H as Hw Hh.
  apply append_cancel in Hw. apply append_cancel in Hh.
  apply (inj pretty) in Hw. apply (inj pretty) in Hh. by subst.
Qed.

(** The same size reported to two scenes at different frames. *)
Lemma resize_style_determines_size_witness :
  canvas_style (onResize 800 600 (startup 1024 768)) =
  canvas_style (onResize 800 600 (animate (startup 640 480))) /\
  renderer_size (onResize 800 600 (startup 1024 768)) =
  renderer_size (onResize 800 600 (animate (startup 640 480))).
Proof.
  assert (H : canvas_style (onResize 800 600 (startup 1024 768)) =
              canvas_style (onResize 800 600 (animate (startup 640 480))))
    by reflexivity.
  split; [exact H|].
  exact (proj1 (resize_style_determines_size 800 600 800 600
                  (startup 1024 768) (animate (startup 640 480)) H)).
Defined.

(** * City lights *)

Lemma sun_length : Vector3.length sunLight_position = sqrt 7812500.
Proof. unfold Vector3.length, sunLight_position, norm. f_equal. lra. Qed.

Lemma sun_length_pos : 0 < Vector3.length sunLight_position.
Proof. rewrite sun_length. apply sqrt_lt_R0. lra. Qed.

(** A normalized vector has length at most 1: it is a unit vector, or the
    zero vector left as it was. *)
Lemma normalize_square (v : R * R * R) :
  let '(x, y, z) := Vector3.normalize v in x * x + y * y + z * z <= 1.
Proof.
  destruct v as [[x y] z].
  pose proof (norm_square (x, y, z)) as [HN HN2].
  unfold Vector3.normalize, Vector3.divideScalar, Vector3.multiplyScalar,
    Vector3.length.
  set (N := norm (x, y, z)) in *.
  destruct (Req_dec_T N 0) as [H0|Hne].
  - rewrite H0 in HN2. nra.
  - replace (x * (1 / N) * (x * (1 / N)) + y * (1 / N) * (y * (1 / N)) +
             z * (1 / N) * (z * (1 / N)))
      with ((x * x + y * y + z * z) / (N * N)) by (field; exact Hne).
    rewrite <- HN2. right. field. exact Hne.
Qed.

Lemma dot_unit_bound (a b : R * R * R) :
  (let '(x, y, z) := a in x * x + y * y + z * z <= 1) ->
  (let '(x, y, z) := b in x * x + y * y + z * z <= 1) ->
  -1 <= Vector3.dot a b <= 1.
Proof.
  destruct a as [[x1 y1] z1], b as [[x2 y2] z2]. unfold Vector3.dot.
  intros Ha Hb.
  pose proof (Rle_0_sqr (x1 - x2)). pose proof (Rle_0_sqr (y1 - y2)).
  pose proof (Rle_0_sqr (z1 - z2)). pose proof (Rle_0_sqr (x1 + x2)).
  pose proof (Rle_0_sqr (y1 + y2)). pose proof (Rle_0_sqr (z1 + z2)).
  unfold Rsqr in *. split; lra.
Qed.

Lemma normalize_scaled_sun (k : R) :
  Vector3.normalize (Vector3.multiplyScalar sunLight_position k) =
  if Rlt_dec 0 k then Vector3.normalize sunLight_position
  else if Req_dec_T k 0 then (0, 0, 0)
  else mirror (Vector3.normalize sunLight_position).
Proof.
  pose proof sun_length_pos as HL.
  pose proof (norm_square sunLight_position) as [_ HL2].
  assert (Hk : Vector3.length (Vector3.multiplyScalar sunLight_position k)
               = Rabs k * Vector3.length sunLight_position).
  { unfold Vector3.length in *. unfold sunLight_position in *.
    cbn [Vector3.multiplyScalar]. unfold norm at 1.
    apply sqrt_lem_1.
    - nra.
    - apply Rmult_le_pos; [apply Rabs_pos | lra].
    - replace (Rabs k * norm (-2000, -1250, 1500) *
               (Rabs k * norm (-2000, -1250, 1500)))
        with (Rabs k * Rabs k *
              (norm (-2000, -1250, 1500) * norm (-2000, -1250, 1500)))
        by ring.
      rewrite HL2. replace (Rabs k * Rabs k) with (k * k); [ring|].
      rewrite <- Rabs_mult. symmetry. apply Rabs_pos_eq. nra. }
  unfold Vector3.normalize. rewrite Hk.
  set (L := Vector3.length sunLight_position) in *.
  destruct (Req_dec_T L 0) as [HL0|_]; [lra|].
  unfold sunLight_position, Vector3.divideScalar, mirror.
  cbn [Vector3.multiplyScalar].
  destruct (Rlt_dec 0 k) as [Hpos|Hnpos].
  - rewrite (Rabs_pos_eq k) by lra.
    destruct (Req_dec_T (k * L) 0) as [H0|_]; [nra|].
    f_equal; [f_equal|]; field; lra.
  - destruct (Req_dec_T k 0) as [->|Hne].
    + rewrite Rabs_R0, Rmult_0_l.
      destruct (Req_dec_T 0 0) as [_|H]; [|done].
      f_equal; [f_equal|]; lra.
    + rewrite (Rabs_left k) by lra.
      destruct (Req_dec_T (- k * L) 0) as [H0|_]; [nra|].
      f_equal; [f_equal|]; field; lra.
Qed.

Lemma dot_sun_direction :
  Vector3.dot (Vector3.normalize sunLight_position)
              (Vector3.normalize sunLight_position) = 1.
Proof.
  pose proof sun_length_pos as HL.
  pose proof (norm_square sunLight_position) as [_ HL2].
  unfold Vector3.normalize. unfold Vector3.length in *.
  set (L := norm sunLight_position) in *.
  destruct (Req_dec_T L 0) as [HL0|_]; [lra|].
  unfold sunLight_position in *. 
  cbn [Vector3.divideScalar Vector3.multiplyScalar Vector3.dot].
  replace (-2000 * (1 / L) * (-2000 * (1 / L)) +
           -1250 * (1 / L) * (-1250 * (1 / L)) +
           1500 * (1 / L) * (1500 * (1 / L)))
    with ((-2000 * -2000 + -1250 * -1250 + 1500 * 1500) / (L * L))
    by (field; lra).
  rewrite HL2. field; lra.
Qed.

(** [updateNightLights] always leaves an opacity between 0 and 0.75,
    whatever [localToWorld] returns and whatever the opacity was, and it
    changes nothing else in the scene.  The new opacity depends on the
    scene only through the normal [localToWorld] returns, and it does not
    grow with the dot product: the more the normal faces the sun, the
    dimmer the lights. *)
Theorem updateNightLights_range
    (localToWorld : Scene -> R * R * R -> R * R * R) (s : Scene) :
  let s' := updateNightLights localToWorld s in
  let dot_in := fun s0 : Scene =>
    Vector3.dot (Vector3.normalize sunLight_position)
      (Vector3.normalize (localToWorld s0 (0, 0, 1))) in
  0 <= lightsMesh_opacity s' <= 0.75 /\
  earthGroup_rotation_y s' = earthGroup_rotation_y s /\
  earthGroup_rotation_z s' = earthGroup_rotation_z s /\
  cloudGroup_rotation_y s' = cloudGroup_rotation_y s /\
  starsGroup_rotation_y s' = starsGroup_rotation_y s /\
  renderer_size s' = renderer_size s /\
  canvas_style s' = canvas_style s /\
  camera_aspect s' = camera_aspect s /\
  rendered s' = rendered s /\
  (forall s2, localToWorld s2 (0, 0, 1) = localToWorld s (0, 0, 1) ->
     lightsMesh_opacity (updateNightLights localToWorld s2) =
     lightsMesh_opacity s') /\
  (forall s2, dot_in s <= dot_in s2 ->
     lightsMesh_opacity (updateNightLights localToWorld s2) <=
     lightsMesh_opacity s').
Proof.
  intros s' dot_in. subst s'.
  unfold updateNightLights.
  cbn [lightsMesh_opacity earthGroup_rotation_y earthGroup_rotation_z
       cloudGroup_rotation_y starsGroup_rotation_y renderer_size
       canvas_style camera_aspect rendered].
  fold (dot_in s).
  assert (Hm : forall d, 0 <= Rmax 0 d) by (intros d; apply Rmax_l).
  split.
  { split; [apply Rmax_l|]. apply Rmax_lub; [lra|].
    pose proof (Hm (dot_in s)). lra. }
  do 8 (split; [reflexivity|]).
  split.
  - intros s2 H2. by rewrite H2.
  - intros s2 Hle. fold (dot_in s2).
    assert (Hmax : Rmax 0 (dot_in s) <= Rmax 0 (dot_in s2)).
    { apply Rmax_lub; [apply Rmax_l|].
      apply Rle_trans with (dot_in s2); [exact Hle | apply Rmax_r]. }
    apply Rmax_lub; [apply Rmax_l|].
    apply Rle_trans with (0.75 * (1 - Rmax 0 (dot_in s))); [lra|].
    apply Rmax_r.
Qed.

(** The two ends.  The lights are at their brightest, 0.75, exactly when
    the dot product is not positive, and off exactly when it is 1.  When
    the normal of the Earth in the world points to the sun the lights are
    off; when it points away from it, or is the zero vector, they are at
    0.75. *)
Theorem updateNightLights_extremes
    (localToWorld : Scene -> R * R * R -> R * R * R) (s : Scene) :
  let s' := updateNightLights localToWorld s in
  let dot := Vector3.dot (Vector3.normalize sunLight_position)
               (Vector3.normalize (localToWorld s (0, 0, 1))) in
  (lightsMesh_opacity s' = 0.75 <-> dot <= 0) /\
  (lightsMesh_opacity s' = 0 <-> dot = 1) /\
  (forall k, 0 < k ->
     localToWorld s (0, 0, 1) = Vector3.multiplyScalar sunLight_position k ->
     lightsMesh_opacity s' = 0) /\
  (forall k, k <= 0 ->
     localToWorld s (0, 0, 1) = Vector3.multiplyScalar sunLight_position k ->
     lightsMesh_opacity s' = 0.75).
Proof.
  intros s' dot. subst s'.
  assert (Hdot : -1 <= dot <= 1)
    by (apply dot_unit_bound; apply normalize_square).
  unfold updateNightLights. cbn [lightsMesh_opacity]. fold dot.
  assert (Hm : 0 <= Rmax 0 dot <= 1).
  { split; [apply Rmax_l|]. apply Rmax_lub; lra. }
  rewrite (Rmax_right 0 (0.75 * (1 - Rmax 0 dot))) by lra.
  assert (Hhi : 0.75 * (1 - Rmax 0 dot) = 0.75 <-> dot <= 0).
  { split; intros H.
    - pose proof (Rmax_r 0 dot). lra.
    - rewrite Rmax_left by exact H. lra. }
  assert (Hlo : 0.75 * (1 - Rmax 0 dot) = 0 <-> dot = 1).
  { split; intros H.
    - assert (Hone : Rmax 0 dot = 1) by lra.
      destruct (Rle_dec dot 0) as [Hle|Hgt].
      + rewrite Rmax_left in Hone by exact Hle. lra.
      + rewrite Rmax_right in Hone by lra. exact Hone.
    - rewrite H, Rmax_right by lra. lra. }
  split; [exact Hhi|]. split; [exact Hlo|]. split.
  - intros k Hk Hn. apply Hlo. subst dot.
    rewrite Hn, normalize_scaled_sun.
    destruct (Rlt_dec 0 k) as [_|Hno]; [|done]. apply dot_sun_direction.
  - intros k Hk Hn. apply Hhi. subst dot.
    rewrite Hn, normalize_scaled_sun.
    destruct (Rlt_dec 0 k) as [Hpos|_]; [lra|].
    destruct (Req_dec_T k 0) as [_|_].
    + destruct (Vector3.normalize sunLight_position) as [[x y] z].
      unfold Vector3.dot. lra.
    + pose proof dot_sun_direction as H1.
      destruct (Vector3.normalize sunLight_position) as [[x y] z].
      unfold Vector3.dot, mirror in *. lra.
Qed.
